(** * SceneGraph: a shallow embedding of the scene orchestrator

    The development follows [SceneGraph.cpp] and [SceneGraph.h].

    Conventions of the embedding.
    - [int] is [Z].  The modelled code stores and compares integers and
      never relies on wrap-around; conversions [static_cast<int>] of a
      [float] are truncations toward zero.
    - [float] is [Q]: arithmetic is exact.  A division whose divisor is
      zero leaves this model (IEEE gives an infinity or a NaN); the
      functions that divide therefore return a [result], and [DivByZero]
      records that such a division was performed.
    - An [Actor*] is an [ActorId]; the objects owned by the
      [std::unique_ptr]s of the registry live in a store [m_Heap], so
      that the registry, the deferred buffer and the quad-tree alias the
      same actors.
    - A [QuadTreeCell*] held by an actor is the path of that cell from
      the root.
    - The collaborators whose code is outside [SceneGraph.cpp] (actor
      factory, actor update logic, ray queries of the quad-tree) are
      parameters of the functions that call them. *)

From Stdlib Require Import QArith Qround Qabs Qminmax Lqa ZArith Lia.
From stdpp Require Import gmap strings list.

Local Open Scope Q_scope.
Set Warnings "-clear-no-such-hyp".

(* ===================================================================== *)
(** ** Numbers *)
(* ===================================================================== *)

(** Outcome of a computation that divides. *)
Inductive result (A : Type) : Type :=
| Ok (a : A)
| DivByZero.
Arguments Ok {A} a.
Arguments DivByZero {A}.

Definition rbind {A B : Type} (r : result A) (k : A -> result B) : result B :=
  match r with
  | Ok a => k a
  | DivByZero => DivByZero
  end.

Notation "x <- r ;; k" := (rbind r (fun x => k))
  (at level 100, r at next level, right associativity, only parsing).

(** [a / b] on floats. *)
Definition fdiv (a b : Q) : result Q :=
  if Qeq_bool b 0 then DivByZero else Ok (a / b).

(** [a < b] on floats. *)
Definition Qlt_bool (a b : Q) : bool := negb (Qle_bool b a).

(** [static_cast<int>(q)]: truncation toward zero. *)
Definition Qtrunc (q : Q) : Z := Z.quot (Qnum q) (Zpos (Qden q)).

(** [std::roundf]: nearest integer, halves away from zero. *)
Definition roundf (q : Q) : Z :=
  if Qlt_bool q 0 then Z.opp (Qfloor (- q + (1 # 2))) else Qfloor (q + (1 # 2)).

(* ===================================================================== *)
(** ** Points and rectangles *)
(* ===================================================================== *)

(** [Point<float>]. *)
Record Point : Type := mkPoint { X : Q; Y : Q }.

(** [Point<>], that is [Point<int>]. *)
Record PointI : Type := mkPointI { Xi : Z; Yi : Z }.

Definition Point_add (p q : Point) : Point := mkPoint (X p + X q) (Y p + Y q).
Definition Point_sub (p q : Point) : Point := mkPoint (X p - X q) (Y p - Y q).
Definition Point_mul (p : Point) (s : Q) : Point := mkPoint (X p * s) (Y p * s).
Definition Point_div (p : Point) (s : Q) : result Point :=
  x <- fdiv (X p) s ;; y <- fdiv (Y p) s ;; Ok (mkPoint x y).
Definition PointI_sub (p q : PointI) : PointI :=
  mkPointI (Xi p - Xi q) (Yi p - Yi q).

(** Conversion of a [Point<float>] to a [Point<int>]. *)
Definition Point_toInt (p : Point) : PointI := mkPointI (Qtrunc (X p)) (Qtrunc (Y p)).

(** Equality of float points, component by component. *)
Definition Point_eq (p q : Point) : Prop := X p == X q /\ Y p == Y q.

(** Modelled from the spec: the [Rect] class, whose header is not among
    the sources of this development.  A bounding region is an
    axis-aligned rectangle; the accessors used by
    [SceneGraph::ResolveCollisions] are given their
    usual meaning: [GetLeft] and [GetTop] are the corner [x], [y],
    [GetRight] and [GetBottom] add the width and the height, and the
    centre is half the extent away from the corner. *)
Record Rect : Type := mkRect { rx : Q; ry : Q; rwidth : Q; rheight : Q }.

Definition GetLeft (r : Rect) : Q := rx r.
Definition GetTop (r : Rect) : Q := ry r.
Definition GetWidth (r : Rect) : Q := rwidth r.
Definition GetHeight (r : Rect) : Q := rheight r.
Definition GetRight (r : Rect) : Q := rx r + rwidth r.
Definition GetBottom (r : Rect) : Q := ry r + rheight r.
Definition Rect_GetPosition (r : Rect) : Point := mkPoint (rx r) (ry r).
Definition SetX (r : Rect) (x : Q) : Rect := mkRect x (ry r) (rwidth r) (rheight r).
Definition SetY (r : Rect) (y : Q) : Rect := mkRect (rx r) y (rwidth r) (rheight r).
Definition GetCentrePosition (r : Rect) : Point :=
  mkPoint (rx r + rwidth r / 2) (ry r + rheight r / 2).
Definition SetCentrePosition (r : Rect) (c : Point) : Rect :=
  mkRect (X c - rwidth r / 2) (Y c - rheight r / 2) (rwidth r) (rheight r).


Definition Rect_contains (outer inner : Rect) : bool :=
  Qle_bool (GetLeft outer) (GetLeft inner) && Qle_bool (GetRight inner) (GetRight outer) &&
  Qle_bool (GetTop outer) (GetTop inner) && Qle_bool (GetBottom inner) (GetBottom outer).

(** The two rectangles overlap with positive area. *)
Definition Rect_intersects (a b : Rect) : bool :=
  Qlt_bool (GetLeft a) (GetRight b) && Qlt_bool (GetLeft b) (GetRight a) &&
  Qlt_bool (GetTop a) (GetBottom b) && Qlt_bool (GetTop b) (GetBottom a).

(* ===================================================================== *)
(** ** Actors *)
(* ===================================================================== *)

Definition ActorId : Type := nat.

(** The four children of a subdivided cell, in quadrant order. *)
Inductive Quadrant : Type := TopLeft | TopRight | BottomLeft | BottomRight.

#[global] Instance Quadrant_eq_dec : EqDecision Quadrant.
Proof. solve_decision. Defined.

(** A cell of the quad-tree is designated by its path from the root. *)
Definition CellPath : Type := list Quadrant.

(** Modelled from the spec: the [Actor] class, whose header is not among
    the sources of this development.  An actor has a position, an
    elevation, a facing angle, the bounding boxes of its collision component ([None] when it
    has no such component), a pending-destroy flag, a back-reference to
    the cell that holds it ([None] when untracked) and the resource it
    was built from.  The fields are named after the accessors that
    [SceneGraph.cpp] calls. *)
Record Actor : Type := mkActor {
  GetPosition : Point;
  GetElevation : Q;
  GetAngle : Q;
  GetBoundingBoxes : option (list Rect);
  IsPendingDestroy : bool;
  GetQuadTreeCell : option CellPath;
  GetResource : string
}.

Definition SetPosition (a : Actor) (p : Point) : Actor :=
  mkActor p (GetElevation a) (GetAngle a) (GetBoundingBoxes a)
          (IsPendingDestroy a) (GetQuadTreeCell a) (GetResource a).

Definition SetQuadTreeCell (a : Actor) (c : option CellPath) : Actor :=
  mkActor (GetPosition a) (GetElevation a) (GetAngle a) (GetBoundingBoxes a)
          (IsPendingDestroy a) c (GetResource a).

(** [Actor::Destroy]: the actor is flagged and removed at the next flush. *)
Definition Destroy (a : Actor) : Actor :=
  mkActor (GetPosition a) (GetElevation a) (GetAngle a) (GetBoundingBoxes a)
          true (GetQuadTreeCell a) (GetResource a).

(** [Actor(this, position, elevation)]: a bare actor, not yet initialised. *)
Definition Actor_new (position : Point) (elevation : Q) : Actor :=
  mkActor position elevation 0 None false None EmptyString.

(** The bounding box [l] of an actor standing at [p], in world space:
    the box recentred on [p + l.GetPosition()]. *)
Definition worldBox (p : Point) (l : Rect) : Rect :=
  SetCentrePosition l (Point_add p (Rect_GetPosition l)).

(** The store of actor objects. *)
Abbreviation Heap := (gmap ActorId Actor).

(* ===================================================================== *)
(** ** The quad-tree index *)
(* ===================================================================== *)

(** Modelled from the spec: the [QuadTreeCell] class, whose files are not
    among the sources of this development.  A spatial cell owns a
    bounding region, an occupancy threshold, either no children or
    exactly four, and the references of the actors that do not fit
    entirely inside a single child. *)
Inductive QuadTreeCell : Type :=
| Leaf (region : Rect) (maxNumActors : nat) (held : list ActorId)
| Node (region : Rect) (maxNumActors : nat) (held : list ActorId)
       (c0 c1 c2 c3 : QuadTreeCell).

Definition GetBoundingBox (c : QuadTreeCell) : Rect :=
  match c with Leaf r _ _ | Node r _ _ _ _ _ _ => r end.

Definition GetMaxNumActors (c : QuadTreeCell) : nat :=
  match c with Leaf _ m _ | Node _ m _ _ _ _ _ => m end.

Definition cellActors (c : QuadTreeCell) : list ActorId :=
  match c with Leaf _ _ h | Node _ _ h _ _ _ _ => h end.

Definition setCellActors (c : QuadTreeCell) (h : list ActorId) : QuadTreeCell :=
  match c with
  | Leaf r m _ => Leaf r m h
  | Node r m _ c0 c1 c2 c3 => Node r m h c0 c1 c2 c3
  end.

Definition child (c : QuadTreeCell) (q : Quadrant) : option QuadTreeCell :=
  match c with
  | Leaf _ _ _ => None
  | Node _ _ _ c0 c1 c2 c3 =>
      Some match q with
           | TopLeft => c0 | TopRight => c1 | BottomLeft => c2 | BottomRight => c3
           end
  end.

Definition setChild (c : QuadTreeCell) (q : Quadrant) (k : QuadTreeCell) : QuadTreeCell :=
  match c with
  | Leaf _ _ _ => c
  | Node r m h c0 c1 c2 c3 =>
      match q with
      | TopLeft => Node r m h k c1 c2 c3
      | TopRight => Node r m h c0 k c2 c3
      | BottomLeft => Node r m h c0 c1 k c3
      | BottomRight => Node r m h c0 c1 c2 k
      end
  end.

(** The cell a path designates. *)
Fixpoint cellAt (c : QuadTreeCell) (path : CellPath) : option QuadTreeCell :=
  match path with
  | [] => Some c
  | q :: path' =>
      match child c q with
      | Some k => cellAt k path'
      | None => None
      end
  end.

(** Rewrite the cell a path designates (nothing happens off the tree). *)
Fixpoint updateAt (c : QuadTreeCell) (path : CellPath)
         (f : QuadTreeCell -> QuadTreeCell) : QuadTreeCell :=
  match path with
  | [] => f c
  | q :: path' =>
      match child c q with
      | Some k => setChild c q (updateAt k path' f)
      | None => c
      end
  end.

(** Every reference of the subtree: this cell first, then the children
    in quadrant order. *)
Fixpoint allActors (c : QuadTreeCell) : list ActorId :=
  match c with
  | Leaf _ _ h => h
  | Node _ _ h c0 c1 c2 c3 =>
      h ++ allActors c0 ++ allActors c1 ++ allActors c2 ++ allActors c3
  end.

(** The references held below a cell. *)
Definition descendantActors (c : QuadTreeCell) : list ActorId :=
  match c with
  | Leaf _ _ _ => []
  | Node _ _ _ c0 c1 c2 c3 =>
      allActors c0 ++ allActors c1 ++ allActors c2 ++ allActors c3
  end.

(** Modelled from the spec: [QuadTreeCell::AppendActorList(out, recurse)]
    appends to [out] the references held directly at this cell and, if
    requested, those of all descendants. *)
Definition AppendActorList (c : QuadTreeCell) (out : list ActorId)
           (recurse : bool) : list ActorId :=
  out ++ (if recurse then allActors c else cellActors c).

(** Erase the first occurrence of a reference. *)
Fixpoint erase (id : ActorId) (l : list ActorId) : list ActorId :=
  match l with
  | [] => []
  | x :: l' => if Nat.eqb x id then l' else x :: erase id l'
  end.

Definition holds (id : ActorId) (l : list ActorId) : bool :=
  existsb (Nat.eqb id) l.

(** The cell without its reference to the actor. *)
Definition eraseIn (id : ActorId) (k : QuadTreeCell) : QuadTreeCell :=
  setCellActors k (erase id (cellActors k)).

Definition setCell (h : Heap) (id : ActorId) (c : option CellPath) : Heap :=
  alter (fun a => SetQuadTreeCell a c) id h.

(** Modelled from the spec: [QuadTreeCell::RemoveActor(actor)], called on
    the owning cell (designated by [path]): the cell erases the reference
    it holds and the actor's back-reference is cleared; the call reports
    whether a reference was erased. *)
Definition Cell_RemoveActor (root : QuadTreeCell) (path : CellPath)
           (id : ActorId) (h : Heap) : bool * QuadTreeCell * Heap :=
  match cellAt root path with
  | Some c =>
      if holds id (cellActors c)
      then (true,
            updateAt root path (eraseIn id),
            setCell h id None)
      else (false, root, h)
  | None => (false, root, h)
  end.

(** The four equal quadrants of a region. *)
Definition quadrantRegion (r : Rect) (q : Quadrant) : Rect :=
  let w := rwidth r / 2 in
  let h := rheight r / 2 in
  match q with
  | TopLeft => mkRect (rx r) (ry r) w h
  | TopRight => mkRect (rx r + w) (ry r) w h
  | BottomLeft => mkRect (rx r) (ry r + h) w h
  | BottomRight => mkRect (rx r + w) (ry r + h) w h
  end.

(** The extent an actor occupies: its bounding boxes in world space, or
    its position alone when it has no collision component. *)
Definition actorExtent (a : Actor) : list Rect :=
  match GetBoundingBoxes a with
  | Some boxes => map (worldBox (GetPosition a)) boxes
  | None => [mkRect (X (GetPosition a)) (Y (GetPosition a)) 0 0]
  end.

Definition fitsIn (a : Actor) (r : Rect) : bool :=
  forallb (Rect_contains r) (actorExtent a).

(** The child quadrant of region [r] that wholly contains the actor. *)
Definition fittingQuadrant (h : Heap) (id : ActorId) (r : Rect) : option Quadrant :=
  match h !! id with
  | Some a =>
      find (fun q => fitsIn a (quadrantRegion r q))
           [TopLeft; TopRight; BottomLeft; BottomRight]
  | None => None
  end.

(** Modelled from the spec: [QuadTreeCell::InsertActor(actor)].  When the
    cell has children and the actor lies wholly inside one child
    quadrant, the call recurses into that child; otherwise the reference
    is stored at this cell and the actor's back-reference is set to it.
    A cell without children whose count then exceeds the threshold
    subdivides into four equal quadrants and re-inserts every actor it
    holds, which pushes down those that fit a child.  [depth] bounds the
    nesting of the calls; a call that has used it up stores the reference
    where it stands. *)
Fixpoint Cell_InsertActor (depth : nat) (path : CellPath) (c : QuadTreeCell)
         (id : ActorId) (h : Heap) : QuadTreeCell * Heap :=
  match depth with
  | O => (setCellActors c (cellActors c ++ [id]), setCell h id (Some path))
  | S depth' =>
      match c with
      | Node r m hd c0 c1 c2 c3 =>
          match fittingQuadrant h id r with
          | Some q =>
              match child c q with
              | Some k =>
                  let (k', h') := Cell_InsertActor depth' (path ++ [q]) k id h in
                  (setChild c q k', h')
              | None => (c, h)
              end
          | None => (Node r m (hd ++ [id]) c0 c1 c2 c3, setCell h id (Some path))
          end
      | Leaf r m hd =>
          let hd' := hd ++ [id] in
          let h1 := setCell h id (Some path) in
          if (m <? length hd')%nat
          then
            let fresh_node :=
              Node r m []
                   (Leaf (quadrantRegion r TopLeft) m [])
                   (Leaf (quadrantRegion r TopRight) m [])
                   (Leaf (quadrantRegion r BottomLeft) m [])
                   (Leaf (quadrantRegion r BottomRight) m []) in
            fold_left (fun (st : QuadTreeCell * Heap) (a : ActorId) =>
                         Cell_InsertActor depth' path (fst st) a (snd st))
                      hd' (fresh_node, h1)
          else (Leaf r m hd', h1)
      end
  end.

(** Nesting allowed to [InsertActor] when called on the root. *)
Definition InsertDepth : nat := 32%nat.

(** Modelled from the spec: [QuadTreeCell::SetMaxNumActors(newMax,
    applyRecursively)] updates the threshold, of the descendants too when
    asked; nothing is subdivided or merged. *)
Fixpoint SetMaxNumActors (c : QuadTreeCell) (newMax : nat) (recursive : bool)
  : QuadTreeCell :=
  match c with
  | Leaf r _ h => Leaf r newMax h
  | Node r _ h c0 c1 c2 c3 =>
      if recursive
      then Node r newMax h (SetMaxNumActors c0 newMax true) (SetMaxNumActors c1 newMax true)
                (SetMaxNumActors c2 newMax true) (SetMaxNumActors c3 newMax true)
      else Node r newMax h c0 c1 c2 c3
  end.

(** Displacement that separates two overlapping world boxes along the
    axis of minimum penetration; the first box moves by half of it and
    the second by the opposite half. *)
Definition separation (wa wb : Rect) : Point :=
  let penX := Qmin (GetRight wa) (GetRight wb) - Qmax (GetLeft wa) (GetLeft wb) in
  let penY := Qmin (GetBottom wa) (GetBottom wb) - Qmax (GetTop wa) (GetTop wb) in
  if Qle_bool penX penY
  then if Qle_bool (X (GetCentrePosition wa)) (X (GetCentrePosition wb))
       then mkPoint (- (penX / 2)) 0 else mkPoint (penX / 2) 0
  else if Qle_bool (Y (GetCentrePosition wa)) (Y (GetCentrePosition wb))
       then mkPoint 0 (- (penY / 2)) else mkPoint 0 (penY / 2).

Definition resolveBoxes (st : Actor * Actor) (la lb : Rect) : Actor * Actor :=
  let (a, b) := st in
  let wa := worldBox (GetPosition a) la in
  let wb := worldBox (GetPosition b) lb in
  if Rect_intersects wa wb
  then let d := separation wa wb in
       (SetPosition a (Point_add (GetPosition a) d),
        SetPosition b (Point_sub (GetPosition b) d))
  else (a, b).

Definition resolveActors (a b : Actor) : Actor * Actor :=
  match GetBoundingBoxes a, GetBoundingBoxes b with
  | Some boxesA, Some boxesB =>
      fold_left (fun st la => fold_left (fun st' lb => resolveBoxes st' la lb) boxesB st)
                boxesA (a, b)
  | _, _ => (a, b)
  end.

Definition resolvePair (h : Heap) (i j : ActorId) : Heap :=
  if Nat.eqb i j then h
  else match h !! i, h !! j with
       | Some a, Some b =>
           let (a', b') := resolveActors a b in <[j := b']> (<[i := a']> h)
       | _, _ => h
       end.

(** Every pair of the list, each once. *)
Fixpoint resolveAmong (ids : list ActorId) (h : Heap) : Heap :=
  match ids with
  | [] => h
  | i :: rest => resolveAmong rest (fold_left (fun h' j => resolvePair h' i j) rest h)
  end.

(** Modelled from the spec: [QuadTreeCell::ResolveCollisions()], invoked
    top-down.  At each cell every pair of actors held at the cell is
    tested, and the actors held at the cell are tested against those of
    the descendants; an overlapping pair is separated along the axis of
    minimum penetration, both actors moving symmetrically.  The call
    then recurses into the children. *)
Fixpoint Cell_ResolveCollisions (c : QuadTreeCell) (h : Heap) : Heap :=
  match c with
  | Leaf _ _ hd => resolveAmong hd h
  | Node _ _ hd c0 c1 c2 c3 =>
      let below := allActors c0 ++ allActors c1 ++ allActors c2 ++ allActors c3 in
      let h1 := resolveAmong hd h in
      let h2 := fold_left (fun h' i => fold_left (fun h'' j => resolvePair h'' i j) below h')
                          hd h1 in
      Cell_ResolveCollisions c3
        (Cell_ResolveCollisions c2
           (Cell_ResolveCollisions c1 (Cell_ResolveCollisions c0 h2)))
  end.

(* ===================================================================== *)
(** ** The scene orchestrator: state *)
(* ===================================================================== *)

Inductive RenderPerspective : Type := OBLIQUE | ISOMETRIC.

(** What the orchestrator reads of its renderer and of a tile map. *)
Record Renderer : Type := mkRenderer { GetScreenCentrePosition : PointI }.
Record TileMap : Type := mkTileMap { GetWidth_ : nat; GetLength_ : nat }.

Record SceneGraph : Type := mkSceneGraph {
  m_RendererRef : Renderer;
  m_Heap : Heap;
  m_Actors : list ActorId;
  m_TileMaps : list TileMap;
  m_TileWidth : Z;
  m_TileHeight : Z;
  m_HalfTileWidth : Z;
  m_HalfTileHeight : Z;
  m_Zoom : Q;
  m_wCameraPosition : Point;
  m_wCameraElevation : Q;
  m_sCameraPosition : Point;
  m_QuadTreeRoot : QuadTreeCell;
  m_RenderPerspective : RenderPerspective;
  m_NewActors : list ActorId;
  m_IsUpdatingActors : bool
}.

Definition set_Heap (sg : SceneGraph) (h : Heap) : SceneGraph :=
  mkSceneGraph (m_RendererRef sg) h (m_Actors sg) (m_TileMaps sg)
    (m_TileWidth sg) (m_TileHeight sg) (m_HalfTileWidth sg) (m_HalfTileHeight sg)
    (m_Zoom sg) (m_wCameraPosition sg) (m_wCameraElevation sg) (m_sCameraPosition sg)
    (m_QuadTreeRoot sg) (m_RenderPerspective sg) (m_NewActors sg) (m_IsUpdatingActors sg).

Definition set_Actors (sg : SceneGraph) (l : list ActorId) : SceneGraph :=
  mkSceneGraph (m_RendererRef sg) (m_Heap sg) l (m_TileMaps sg)
    (m_TileWidth sg) (m_TileHeight sg) (m_HalfTileWidth sg) (m_HalfTileHeight sg)
    (m_Zoom sg) (m_wCameraPosition sg) (m_wCameraElevation sg) (m_sCameraPosition sg)
    (m_QuadTreeRoot sg) (m_RenderPerspective sg) (m_NewActors sg) (m_IsUpdatingActors sg).

Definition set_NewActors (sg : SceneGraph) (l : list ActorId) : SceneGraph :=
  mkSceneGraph (m_RendererRef sg) (m_Heap sg) (m_Actors sg) (m_TileMaps sg)
    (m_TileWidth sg) (m_TileHeight sg) (m_HalfTileWidth sg) (m_HalfTileHeight sg)
    (m_Zoom sg) (m_wCameraPosition sg) (m_wCameraElevation sg) (m_sCameraPosition sg)
    (m_QuadTreeRoot sg) (m_RenderPerspective sg) l (m_IsUpdatingActors sg).

Definition set_QuadTreeRoot (sg : SceneGraph) (c : QuadTreeCell) : SceneGraph :=
  mkSceneGraph (m_RendererRef sg) (m_Heap sg) (m_Actors sg) (m_TileMaps sg)
    (m_TileWidth sg) (m_TileHeight sg) (m_HalfTileWidth sg) (m_HalfTileHeight sg)
    (m_Zoom sg) (m_wCameraPosition sg) (m_wCameraElevation sg) (m_sCameraPosition sg)
    c (m_RenderPerspective sg) (m_NewActors sg) (m_IsUpdatingActors sg).

Definition set_IsUpdatingActors (sg : SceneGraph) (b : bool) : SceneGraph :=
  mkSceneGraph (m_RendererRef sg) (m_Heap sg) (m_Actors sg) (m_TileMaps sg)
    (m_TileWidth sg) (m_TileHeight sg) (m_HalfTileWidth sg) (m_HalfTileHeight sg)
    (m_Zoom sg) (m_wCameraPosition sg) (m_wCameraElevation sg) (m_sCameraPosition sg)
    (m_QuadTreeRoot sg) (m_RenderPerspective sg) (m_NewActors sg) b.

(* ===================================================================== *)
(** ** Tile dimensions, perspective, zoom and camera *)
(* ===================================================================== *)

(** [SceneGraph::SetTileDimensions].  The halves are
    [static_cast<int>(tileWidth / 2.0f)]: the quotient truncated. *)
Definition SetTileDimensions (sg : SceneGraph) (tileWidth tileHeight : Z) : SceneGraph :=
  mkSceneGraph (m_RendererRef sg) (m_Heap sg) (m_Actors sg) (m_TileMaps sg)
    tileWidth tileHeight (Qtrunc (inject_Z tileWidth / 2)) (Qtrunc (inject_Z tileHeight / 2))
    (m_Zoom sg) (m_wCameraPosition sg) (m_wCameraElevation sg) (m_sCameraPosition sg)
    (m_QuadTreeRoot sg) (m_RenderPerspective sg) (m_NewActors sg) (m_IsUpdatingActors sg).

(** [SceneGraph::GetTileDimensions]: [Point<int>(m_TileHeight, m_TileWidth)]. *)
Definition GetTileDimensions (sg : SceneGraph) : PointI :=
  mkPointI (m_TileHeight sg) (m_TileWidth sg).

Definition GetTileWidth (sg : SceneGraph) : Z := m_TileWidth sg.
Definition GetTileHeight (sg : SceneGraph) : Z := m_TileHeight sg.

(** [SceneGraph::SetRenderPerspective] (inline in the header). *)
Definition SetRenderPerspective (sg : SceneGraph) (p : RenderPerspective) : SceneGraph :=
  mkSceneGraph (m_RendererRef sg) (m_Heap sg) (m_Actors sg) (m_TileMaps sg)
    (m_TileWidth sg) (m_TileHeight sg) (m_HalfTileWidth sg) (m_HalfTileHeight sg)
    (m_Zoom sg) (m_wCameraPosition sg) (m_wCameraElevation sg) (m_sCameraPosition sg)
    (m_QuadTreeRoot sg) p (m_NewActors sg) (m_IsUpdatingActors sg).

(** [SceneGraph::SetZoom] (inline in the header). *)
Definition SetZoom (sg : SceneGraph) (zoom : Q) : SceneGraph :=
  mkSceneGraph (m_RendererRef sg) (m_Heap sg) (m_Actors sg) (m_TileMaps sg)
    (m_TileWidth sg) (m_TileHeight sg) (m_HalfTileWidth sg) (m_HalfTileHeight sg)
    zoom (m_wCameraPosition sg) (m_wCameraElevation sg) (m_sCameraPosition sg)
    (m_QuadTreeRoot sg) (m_RenderPerspective sg) (m_NewActors sg) (m_IsUpdatingActors sg).

(** [SceneGraph::ToCartesianCoord]. *)
Definition ToCartesianCoord (sg : SceneGraph) (isometricCoord : Point) : Point :=
  match m_RenderPerspective sg with
  | OBLIQUE =>
      mkPoint (X isometricCoord * inject_Z (m_TileWidth sg))
              (Y isometricCoord * inject_Z (m_TileHeight sg))
  | ISOMETRIC =>
      mkPoint ((X isometricCoord - Y isometricCoord) * inject_Z (m_HalfTileWidth sg))
              ((X isometricCoord + Y isometricCoord) * inject_Z (m_HalfTileHeight sg))
  end.

(** [SceneGraph::ToIsometricCoord]; its argument is a [Point<>]. *)
Definition ToIsometricCoord (sg : SceneGraph) (cartesianCoord : PointI) : result Point :=
  match m_RenderPerspective sg with
  | OBLIQUE =>
      x <- fdiv (inject_Z (Xi cartesianCoord)) (inject_Z (m_TileWidth sg)) ;;
      y <- fdiv (inject_Z (Yi cartesianCoord)) (inject_Z (m_TileHeight sg)) ;;
      Ok (mkPoint x y)
  | ISOMETRIC =>
      yh <- fdiv (inject_Z (Yi cartesianCoord)) (inject_Z (m_TileHeight sg)) ;;
      xw <- fdiv (inject_Z (Xi cartesianCoord)) (inject_Z (m_TileWidth sg)) ;;
      Ok (mkPoint (yh + xw) (yh - xw))
  end.

(** [SceneGraph::SetCameraPosition]: the screen-space camera position is
    recomputed and floored. *)
Definition SetCameraPosition (sg : SceneGraph) (wCameraPosition : Point)
           (wCameraElevation : Q) : SceneGraph :=
  let sg1 :=
    mkSceneGraph (m_RendererRef sg) (m_Heap sg) (m_Actors sg) (m_TileMaps sg)
      (m_TileWidth sg) (m_TileHeight sg) (m_HalfTileWidth sg) (m_HalfTileHeight sg)
      (m_Zoom sg) wCameraPosition wCameraElevation (m_sCameraPosition sg)
      (m_QuadTreeRoot sg) (m_RenderPerspective sg) (m_NewActors sg) (m_IsUpdatingActors sg) in
  let c := ToCartesianCoord sg1 wCameraPosition in
  mkSceneGraph (m_RendererRef sg1) (m_Heap sg1) (m_Actors sg1) (m_TileMaps sg1)
    (m_TileWidth sg1) (m_TileHeight sg1) (m_HalfTileWidth sg1) (m_HalfTileHeight sg1)
    (m_Zoom sg1) (m_wCameraPosition sg1) (m_wCameraElevation sg1)
    (mkPoint (inject_Z (Qfloor (X c))) (inject_Z (Qfloor (Y c))))
    (m_QuadTreeRoot sg1) (m_RenderPerspective sg1) (m_NewActors sg1) (m_IsUpdatingActors sg1).

(** [SceneGraph::ToScreenPosition]; the elevation has no effect. *)
Definition ToScreenPosition (sg : SceneGraph) (wPosition : Point) (wElevation : Q) : Point :=
  let sPosition := ToCartesianCoord sg wPosition in
  let centre := GetScreenCentrePosition (m_RendererRef sg) in
  let wScreenCentreOffset := mkPoint (inject_Z (Xi centre)) (inject_Z (Yi centre)) in
  Point_add (Point_mul (Point_sub sPosition (m_sCameraPosition sg)) (m_Zoom sg))
            wScreenCentreOffset.

(** [SceneGraph::ToWorldPosition]: the division by the zoom is skipped
    when the zoom is zero. *)
Definition ToWorldPosition (sg : SceneGraph) (sPosition : PointI) : result Point :=
  w <- ToIsometricCoord sg
         (PointI_sub sPosition (GetScreenCentrePosition (m_RendererRef sg))) ;;
  w' <- (if negb (Qeq_bool (m_Zoom sg) 0) then Point_div w (m_Zoom sg) else Ok w) ;;
  Ok (Point_add w' (m_wCameraPosition sg)).

(** The culling extent that [SceneGraph::RenderTileMaps] computes first. *)
Definition cullingBoxExtent (sg : SceneGraph) : result Q :=
  let centre := GetScreenCentrePosition (m_RendererRef sg) in
  ex <- fdiv (inject_Z (Xi centre)) (inject_Z (m_TileWidth sg) * m_Zoom sg) ;;
  ey <- fdiv (inject_Z (Yi centre)) (inject_Z (m_TileHeight sg) * m_Zoom sg) ;;
  Ok (ex + ey).

(** The window of tiles [(minX, minY, maxX, maxY)] that
    [SceneGraph::RenderTileMaps] visits. *)
Definition cullingWindow (sg : SceneGraph) : result (Z * Z * Z * Z) :=
  e <- cullingBoxExtent sg ;;
  let cam := m_wCameraPosition sg in
  Ok (Z.max (roundf (X cam - e)) 0, Z.max (roundf (Y cam - e)) 0,
      (roundf (X cam + e) + 1)%Z, (roundf (Y cam + e) + 1)%Z).

(** The constructor.  [m_RenderPerspective] and [m_wCameraElevation] have
    no initialiser: their first values are arguments here. *)
Definition SceneGraph_new (renderer : Renderer) (tileMap : TileMap)
           (maxObjectsInCell : nat) (tileWidth tileHeight : Z)
           (perspective0 : RenderPerspective) (elevation0 : Q) : SceneGraph :=
  let root :=
    Leaf (mkRect (- (1 # 2)) (- (1 # 2))
                 (inject_Z (Z.of_nat (GetWidth_ tileMap)))
                 (inject_Z (Z.of_nat (GetLength_ tileMap))))
         maxObjectsInCell [] in
  let sg0 :=
    mkSceneGraph renderer ∅ [] [tileMap] 0 0 0 0 1 (mkPoint 0 0) elevation0 (mkPoint 0 0)
                 root perspective0 [] false in
  let sg1 := SetTileDimensions sg0 tileWidth tileHeight in
  SetCameraPosition sg1 (m_wCameraPosition sg1) (m_wCameraElevation sg1).

Definition SetMaxNumActorsPerCell (sg : SceneGraph) (maxNumActors : nat) : SceneGraph :=
  set_QuadTreeRoot sg (SetMaxNumActors (m_QuadTreeRoot sg) maxNumActors true).

(* ===================================================================== *)
(** ** Actor lifecycle *)
(* ===================================================================== *)

(** [SceneGraph::AddActor].  The [std::unique_ptr] stands for the object
    [a] at address [id]; moving it into a vector stores the object. *)
Definition AddActor (sg : SceneGraph) (id : ActorId) (a : Actor) : ActorId * SceneGraph :=
  let sg1 := set_Heap sg (<[id := a]> (m_Heap sg)) in
  let sg2 :=
    if m_IsUpdatingActors sg1
    then set_NewActors sg1 (m_NewActors sg1 ++ [id])
    else set_Actors sg1 (m_Actors sg1 ++ [id]) in
  let (root', h') :=
    Cell_InsertActor InsertDepth [] (m_QuadTreeRoot sg2) id (m_Heap sg2) in
  (id, set_Heap (set_QuadTreeRoot sg2 root') h').

(** [SceneGraph::RemoveActor]. *)
Definition RemoveActor (sg : SceneGraph) (id : ActorId) : bool * SceneGraph :=
  match m_Heap sg !! id with
  | Some a =>
      match GetQuadTreeCell a with
      | Some pCell =>
          let '(ok, root', h') :=
            Cell_RemoveActor (m_QuadTreeRoot sg) pCell id (m_Heap sg) in
          (ok, set_Heap (set_QuadTreeRoot sg root') h')
      | None => (false, sg)
      end
  | None => (false, sg)
  end.

(** The predicate of [DestroyPendingActors]. *)
Definition pendingDestroy (h : Heap) (id : ActorId) : bool :=
  match h !! id with
  | Some a => IsPendingDestroy a
  | None => false
  end.

(** [SceneGraph::DestroyPendingActors].  [std::partition] moves the
    elements that satisfy the predicate to the front and returns the
    start of the second group, [destroyBegin]; the order inside a group
    is unspecified and taken here as the original one.  The range from
    [destroyBegin] to the end is removed from the graph and erased, which
    destroys the objects. *)
Definition DestroyPendingActors (sg : SceneGraph) : SceneGraph :=
  let (front, back) := List.partition (pendingDestroy (m_Heap sg)) (m_Actors sg) in
  let sg1 := set_Actors sg (front ++ back) in
  let sg2 := fold_left (fun s id => snd (RemoveActor s id)) back sg1 in
  set_Heap (set_Actors sg2 front)
           (fold_left (fun h id => delete id h) back (m_Heap sg2)).

(** [SceneGraph::ClearActors]. *)
Definition ClearActors (sg : SceneGraph) : SceneGraph :=
  let sg1 := fold_left (fun s id => snd (RemoveActor s id)) (m_Actors sg) sg in
  set_Heap (set_Actors sg1 [])
           (fold_left (fun h id => delete id h) (m_Actors sg1) (m_Heap sg1)).

(** The clamp of one bounding box in [SceneGraph::ResolveCollisions]:
    the new position of an actor standing at [actorPosition]. *)
Definition clampBox (rootBoundingBox : Rect) (actorPosition : Point)
           (lBoundingBox : Rect) : Point :=
  let w0 := SetCentrePosition lBoundingBox
              (Point_add actorPosition (Rect_GetPosition lBoundingBox)) in
  let w1 := if Qlt_bool (GetLeft w0) (GetLeft rootBoundingBox)
            then SetX w0 (GetLeft rootBoundingBox) else w0 in
  let w2 := if Qlt_bool (GetRight rootBoundingBox) (GetRight w1)
            then SetX w1 (GetRight rootBoundingBox - GetWidth w1) else w1 in
  let w3 := if Qlt_bool (GetTop w2) (GetTop rootBoundingBox)
            then SetY w2 (GetTop rootBoundingBox) else w2 in
  let w4 := if Qlt_bool (GetBottom rootBoundingBox) (GetBottom w3)
            then SetY w3 (GetBottom rootBoundingBox - GetHeight w3) else w3 in
  Point_sub (GetCentrePosition w4) (Rect_GetPosition lBoundingBox).

(** The loop over the bounding boxes of one actor. *)
Definition clampBoxes (rootBoundingBox : Rect) (boxes : list Rect) (a : Actor) : Actor :=
  fold_left (fun a' l => SetPosition a' (clampBox rootBoundingBox (GetPosition a') l))
            boxes a.

Definition clampActor (rootBoundingBox : Rect) (a : Actor) : Actor :=
  match GetBoundingBoxes a with
  | Some boxes => clampBoxes rootBoundingBox boxes a
  | None => a
  end.

(** The loop over the listed actors. *)
Definition clampAll (rootBoundingBox : Rect) (actors : list ActorId) (h : Heap) : Heap :=
  fold_left (fun h' id => alter (clampActor rootBoundingBox) id h') actors h.

(** First part of [SceneGraph::ResolveCollisions]: the actors listed by
    [AppendActorList(actors, false)] are clamped to the root region. *)
Definition ClampActorsToBounds (sg : SceneGraph) : SceneGraph :=
  let actors := AppendActorList (m_QuadTreeRoot sg) [] false in
  let rootBoundingBox := GetBoundingBox (m_QuadTreeRoot sg) in
  set_Heap sg (clampAll rootBoundingBox actors (m_Heap sg)).

(** [SceneGraph::ResolveCollisions]. *)
Definition ResolveCollisions (sg : SceneGraph) : SceneGraph :=
  let sg1 := ClampActorsToBounds sg in
  set_Heap sg1 (Cell_ResolveCollisions (m_QuadTreeRoot sg1) (m_Heap sg1)).

(** What the update logic of an actor may ask of the scene while the
    update pass runs. *)
Inductive Request : Type :=
| RequestSpawn (actorXmlFilename : string) (position : Point) (elevation : Q)
| RequestDestroy (target : ActorId).

Section Collaborators.

(** [ActorFactory::AddComponentsAndInitaliseActor]: the actor as the
    factory leaves it, and whether it succeeded. *)
Variable AddComponentsAndInitaliseActor : Actor -> string -> bool * Actor.

(** [Actor::Update(deltaTime)]: the requests the actor issues. *)
Variable Actor_Update : ActorId -> Q -> SceneGraph -> list Request.

(** [QuadTreeCell::Raycast] and [QuadTreeCell::RaycastFirstHit]. *)
Variable Cell_Raycast :
  QuadTreeCell -> Heap -> Point -> Point -> list ActorId -> list ActorId.
Variable Cell_RaycastFirstHit :
  QuadTreeCell -> Heap -> Point -> Point -> list ActorId -> option ActorId.

(** [std::make_unique]: an address not in use. *)
Definition newActorId (sg : SceneGraph) : ActorId := fresh (dom (m_Heap sg)).

(** [SceneGraph::SpawnActor(actorXmlFilename, position, elevation)]. *)
Definition SpawnActor (sg : SceneGraph) (actorXmlFilename : string)
           (position : Point) (elevation : Q) : option ActorId * SceneGraph :=
  let pActor := newActorId sg in
  let (ok, a) := AddComponentsAndInitaliseActor (Actor_new position elevation)
                                                actorXmlFilename in
  if negb ok then (None, sg)
  else let (ref, sg') := AddActor sg pActor a in (Some ref, sg').

(** [SceneGraph::SpawnActor(actorXmlFilename)]. *)
Definition SpawnActor_default (sg : SceneGraph) (actorXmlFilename : string)
  : option ActorId * SceneGraph :=
  SpawnActor sg actorXmlFilename (mkPoint 0 0) 0.

(** [SceneGraph::SpawnActor<ActorType>(jsonResource, args...)] of the
    header; [constructed] is the object that [ActorType]'s constructor
    builds from [args].  With assertions compiled out [assert(pActor)]
    does nothing, and the pointer is not null in any case. *)
Definition SpawnActor_typed (sg : SceneGraph) (jsonResource : string)
           (constructed : Actor) : option ActorId * SceneGraph :=
  let pActor := newActorId sg in
  let (_, a) := AddComponentsAndInitaliseActor constructed jsonResource in
  let pActorRef := pActor in
  let (_, sg') := AddActor sg pActor a in
  (Some pActorRef, sg').

(** The effect of one request on the scene. *)
Definition perform (sg : SceneGraph) (r : Request) : SceneGraph :=
  match r with
  | RequestSpawn file position elevation => snd (SpawnActor sg file position elevation)
  | RequestDestroy target => set_Heap sg (alter Destroy target (m_Heap sg))
  end.

(** [pActor->Update(deltaTime)] inside the update pass. *)
Definition UpdateActor (deltaTime : Q) (sg : SceneGraph) (id : ActorId) : SceneGraph :=
  fold_left perform (Actor_Update id deltaTime sg) sg.

(** The loop of [SceneGraph::Update] over [m_Actors]. *)
Definition UpdateActors (deltaTime : Q) (sg : SceneGraph) : SceneGraph :=
  fold_left (UpdateActor deltaTime) (m_Actors sg) sg.

(** [SceneGraph::Update]. *)
Definition Update (sg : SceneGraph) (deltaTime : Q) : SceneGraph :=
  let sg1 := set_IsUpdatingActors sg true in
  let sg2 := UpdateActors deltaTime sg1 in
  let sg3 := set_Actors sg2 (m_Actors sg2 ++ m_NewActors sg2) in
  let sg4 := set_NewActors sg3 [] in
  let sg5 := DestroyPendingActors sg4 in
  set_IsUpdatingActors sg5 false.

(* ===================================================================== *)
(** ** Collision queries *)
(* ===================================================================== *)

(** [SceneGraph::RaycastFirstHit(origin, end, actorsToIgnore)]. *)
Definition RaycastFirstHit (sg : SceneGraph) (origin end_ : Point)
           (actorsToIgnore : list ActorId) : option ActorId :=
  Cell_RaycastFirstHit (m_QuadTreeRoot sg) (m_Heap sg) origin end_ actorsToIgnore.

(** [SceneGraph::RaycastFirstHit(origin, direction, distance, actorsToIgnore)]. *)
Definition RaycastFirstHit_dir (sg : SceneGraph) (origin direction : Point)
           (distance : Q) (actorsToIgnore : list ActorId) : option ActorId :=
  RaycastFirstHit sg origin (Point_add origin (Point_mul direction distance))
                  actorsToIgnore.

(** [SceneGraph::Raycast(origin, end, actorsToIgnore)]. *)
Definition Raycast (sg : SceneGraph) (origin end_ : Point)
           (actorsToIgnore : list ActorId) : list ActorId :=
  Cell_Raycast (m_QuadTreeRoot sg) (m_Heap sg) origin end_ actorsToIgnore.

(** [SceneGraph::Raycast(origin, direction, distance, actorsToIgnore)]. *)
Definition Raycast_dir (sg : SceneGraph) (origin direction : Point)
           (distance : Q) (actorsToIgnore : list ActorId) : list ActorId :=
  Raycast sg origin (Point_add origin (Point_mul direction distance)) actorsToIgnore.

(** [SceneGraph::PickActor]. *)
Definition PickActor (sg : SceneGraph) (sPosition : PointI) : result (option ActorId) :=
  wPosition <- ToWorldPosition sg sPosition ;;
  Ok (Cell_RaycastFirstHit (m_QuadTreeRoot sg) (m_Heap sg) wPosition wPosition []).

End Collaborators.

(* ===================================================================== *)
(** ** Derived notions used by the statements *)
(* ===================================================================== *)

(** Isometric to cartesian, then back.  [ToIsometricCoord] takes a
    [Point<>], so the cartesian point is converted on the way. *)
Definition roundTrip (sg : SceneGraph) (p : Point) : result Point :=
  ToIsometricCoord sg (Point_toInt (ToCartesianCoord sg p)).

(** The floored cartesian projection of the camera's world position. *)
Definition cameraProjection (sg : SceneGraph) : Point :=
  let c := ToCartesianCoord sg (m_wCameraPosition sg) in
  mkPoint (inject_Z (Qfloor (X c))) (inject_Z (Qfloor (Y c))).

(** The cached screen-space camera position is up to date. *)
Definition cameraCacheOk (sg : SceneGraph) : Prop :=
  Point_eq (m_sCameraPosition sg) (cameraProjection sg).

(** The actor is enumerated by the index. *)
Definition indexed (sg : SceneGraph) (id : ActorId) : Prop :=
  id ∈ AppendActorList (m_QuadTreeRoot sg) [] true.

(** The actor is owned by the registry. *)
Definition registered (sg : SceneGraph) (id : ActorId) : Prop :=
  id ∈ m_Actors sg.






(** Every reference of the subtree [c], which sits at [path] in the
    tree, belongs to an actor whose back-reference designates the cell
    that holds the reference. *)
Definition backRefsOk (h : Heap) (path : CellPath) (c : QuadTreeCell) : Prop :=
  forall q k x, cellAt c q = Some k -> x ∈ cellActors k ->
    exists a, h !! x = Some a /\ GetQuadTreeCell a = Some (path ++ q).

(** The index and the back-references agree: the index references each
    actor at most once, every reference is matched by the actor's
    back-reference, and an actor with a back-reference is referenced. *)
Definition indexOk (sg : SceneGraph) : Prop :=
  NoDup (allActors (m_QuadTreeRoot sg)) /\
  backRefsOk (m_Heap sg) [] (m_QuadTreeRoot sg) /\
  (forall id a, m_Heap sg !! id = Some a -> is_Some (GetQuadTreeCell a) ->
                id ∈ allActors (m_QuadTreeRoot sg)).

(** What [InsertActor] guarantees on a subtree [c] that sits at [path]. *)
Definition insertOk (depth : nat) : Prop :=
  forall (path : CellPath) (c : QuadTreeCell) (id : ActorId) (h : Heap),
    NoDup (allActors c) -> id ∉ allActors c -> is_Some (h !! id) ->
    backRefsOk h path c ->
    NoDup (allActors (Cell_InsertActor depth path c id h).1) /\
    backRefsOk (Cell_InsertActor depth path c id h).2 path
               (Cell_InsertActor depth path c id h).1 /\
    (forall x, x ∉ allActors c -> x <> id ->
               (Cell_InsertActor depth path c id h).2 !! x = h !! x).

(** One step of the update pass, from [s] to [s']: the pass stays
    active, the registry is untouched, nothing is freed, and what
    joined the deferred buffer was not allocated before. *)
Definition passStep (s s' : SceneGraph) : Prop :=
  m_IsUpdatingActors s' = true /\
  m_Actors s' = m_Actors s /\
  dom (m_Heap s) ⊆ dom (m_Heap s') /\
  forall id, id ∈ m_NewActors s' -> id ∈ m_NewActors s \/ id ∉ dom (m_Heap s).

(* ===================================================================== *)
(** ** Tile maps and their rendering *)
(* ===================================================================== *)

(** [Rect<>], a rectangle of integers. *)
Record RectI : Type := mkRectI { ix : Z; iy : Z; iwidth : Z; iheight : Z }.

(** A sprite is known by its handle. *)
Definition Sprite : Type := nat.

(** What [RenderTileMaps] reads of a tile. *)
Record Tile : Type := mkTile {
  GetSpriteForRender : option Sprite;
  GetMaskForRender : RectI
}.

(** One call of [Renderer::RenderSprite]. *)
Record DrawCall : Type := mkDrawCall {
  drawSprite : Sprite;
  drawDestRect : RectI;
  drawMask : RectI
}.

(** [static_cast<size_t>] of an [int], for a [size_t] of [bits] bits. *)
Definition to_size_t (bits : N) (z : Z) : Z := (z mod 2 ^ Z.of_N bits)%Z.

(** The values of the counter of [for (k = lo; k < hi; ++k)]. *)
Definition countFrom (lo hi : Z) : list Z :=
  map (fun k => (lo + Z.of_nat k)%Z) (seq 0 (Z.to_nat (hi - lo))).

Definition set_TileMaps (sg : SceneGraph) (l : list TileMap) : SceneGraph :=
  mkSceneGraph (m_RendererRef sg) (m_Heap sg) (m_Actors sg) l
    (m_TileWidth sg) (m_TileHeight sg) (m_HalfTileWidth sg) (m_HalfTileHeight sg)
    (m_Zoom sg) (m_wCameraPosition sg) (m_wCameraElevation sg) (m_sCameraPosition sg)
    (m_QuadTreeRoot sg) (m_RenderPerspective sg) (m_NewActors sg) (m_IsUpdatingActors sg).

(** [SceneGraph::AddTileMap] (inline in the header). *)
Definition AddTileMap (sg : SceneGraph) (tileMap : TileMap) : SceneGraph :=
  set_TileMaps sg (m_TileMaps sg ++ [tileMap]).

(** [SceneGraph::GetTileMap]: [m_TileMaps[index]]; nothing is defined
    past the end of the vector. *)
Definition GetTileMap (sg : SceneGraph) (index : nat) : option TileMap :=
  m_TileMaps sg !! index.

Section TileMaps.

(** The width of [size_t]. *)
Variable size_bits : N.

(** [TileMap::GetNumLayers], [TileMap::AreTransitionsHidden] and
    [TileMap::GetTile]. *)
Variable GetNumLayers : TileMap -> Z -> Z -> Z.
Variable AreTransitionsHidden : TileMap -> bool.
Variable GetTile : TileMap -> Z -> Z -> Z -> Tile.

(** The tiles [(j, i)] that the two loops of [RenderTileMaps] visit in
    one tile map, in the order of the visit. *)
Definition visitedTiles (window : Z * Z * Z * Z) (tileMap : TileMap) : list (Z * Z) :=
  let '(minX, minY, maxX, maxY) := window in
  let gridLength := Z.of_nat (GetLength_ tileMap) in
  let gridWidth := Z.of_nat (GetWidth_ tileMap) in
  if (to_size_t size_bits minY <? gridLength)%Z && (to_size_t size_bits minX <? gridWidth)%Z
  then
    flat_map
      (fun i => map (fun j => (j, i))
                    (countFrom (to_size_t size_bits minX)
                               (Z.min gridWidth (to_size_t size_bits maxX))))
      (countFrom (to_size_t size_bits minY)
                 (Z.min gridLength (to_size_t size_bits maxY)))
  else [].

(** The destination rectangle of the tile [(j, i)]. *)
Definition tileDestRect (sg : SceneGraph) (j i : Z) : RectI :=
  let nextPosition := ToScreenPosition sg (mkPoint (inject_Z j) (inject_Z i)) 0 in
  mkRectI (Qtrunc (X nextPosition - inject_Z (m_HalfTileWidth sg) * m_Zoom sg))
          (Qtrunc (Y nextPosition - inject_Z (m_HalfTileHeight sg) * m_Zoom sg))
          (Qceiling (inject_Z (m_TileWidth sg) * m_Zoom sg))
          (Qceiling (inject_Z (m_TileHeight sg) * m_Zoom sg)).

(** The sprites drawn for the tile [(j, i)]: its layers from the base
    up, or the base alone when the transitions are hidden. *)
Definition tileDraws (sg : SceneGraph) (tileMap : TileMap) (j i : Z) : list DrawCall :=
  let destRect := tileDestRect sg j i in
  let numLayersToRender :=
    if AreTransitionsHidden tileMap then 1%Z else GetNumLayers tileMap j i in
  flat_map
    (fun layer =>
       let tile := GetTile tileMap j i layer in
       match GetSpriteForRender tile with
       | Some pSprite => [mkDrawCall pSprite destRect (GetMaskForRender tile)]
       | None => []
       end)
    (countFrom 0 numLayersToRender).

Definition tileMapDraws (sg : SceneGraph) (window : Z * Z * Z * Z) (tileMap : TileMap)
  : list DrawCall :=
  flat_map (fun t => tileDraws sg tileMap (fst t) (snd t)) (visitedTiles window tileMap).

(** [SceneGraph::RenderTileMaps]: the calls of [RenderSprite], in order. *)
Definition RenderTileMaps (sg : SceneGraph) : result (list DrawCall) :=
  window <- cullingWindow sg ;;
  Ok (flat_map (tileMapDraws sg window) (m_TileMaps sg)).

End TileMaps.

(* ===================================================================== *)
(** ** Serialization *)
(* ===================================================================== *)

(** A JSON value, as [rapidjson] builds it. *)
#[local] Unset Elimination Schemes.
Inductive Json : Type :=
| JInt (z : Z)
| JUint (n : nat)
| JFloat (q : Q)
| JString (s : string)
| JArray (items : list Json)
| JObject (members : list (string * Json)).
#[local] Set Elimination Schemes.

Section Serialization.

(** [TileMap::Serialize] and [JsonHelper::ToJsonValue]. *)
Variable TileMap_Serialize : TileMap -> Json.
Variable ToJsonValue : Rect -> Json.

(** The entry of one actor. *)
Definition actorToJson (a : Actor) : Json :=
  JObject [("resource", JString (GetResource a));
           ("x", JFloat (X (GetPosition a)));
           ("y", JFloat (Y (GetPosition a)));
           ("elevation", JFloat (GetElevation a));
           ("angle", JFloat (GetAngle a))]%string.

(** The loop over [m_Actors].  An owning pointer of the registry always
    has its object; an address without one gives no document. *)
Definition actorsToJson (h : Heap) (ids : list ActorId) : option (list Json) :=
  mapM (fun id => actorToJson <$> h !! id) ids.

(** The document around the entries of the actors. *)
Definition sceneToJson (sg : SceneGraph) (jsonActors : list Json) : Json :=
  JObject
    [("scene",
      JObject
        [("tile_width", JInt (m_TileWidth sg));
         ("tile_height", JInt (m_TileHeight sg));
         ("max_actors_per_cell", JUint (GetMaxNumActors (m_QuadTreeRoot sg)));
         ("perspective",
          JString match m_RenderPerspective sg with
                  | ISOMETRIC => "isometric"
                  | OBLIQUE => "orthographic"
                  end);
         ("bounding_box", ToJsonValue (GetBoundingBox (m_QuadTreeRoot sg)));
         ("tile_maps", JArray (map TileMap_Serialize (m_TileMaps sg)));
         ("actors", JArray jsonActors)])]%string.

(** [SceneGraph::Serialize]: the document that is written to the file. *)
Definition Serialize (sg : SceneGraph) : option Json :=
  sceneToJson sg <$> actorsToJson (m_Heap sg) (m_Actors sg).

End Serialization.

(* ===================================================================== *)
(** ** Further notions used by the statements *)
(* ===================================================================== *)

(** [Point<float>(p)] for an integer point [p]. *)
Definition PointI_toFloat (p : PointI) : Point := mkPoint (inject_Z (Xi p)) (inject_Z (Yi p)).


(** The two actors differ at most in their back-reference. *)
Definition sameData (a b : Actor) : Prop :=
  SetQuadTreeCell a None = SetQuadTreeCell b None.

(** The second heap holds the same actors as the first, each with the
    same data. *)
Definition sameActors (h h' : Heap) : Prop :=
  forall id, match h !! id, h' !! id with
             | Some a, Some a' => sameData a a'
             | None, None => True
             | _, _ => False
             end.

(** The second heap holds the same actors as the first, each at most
    moved by [SetPosition]. *)
Definition movedOnly (h h' : Heap) : Prop :=
  forall id, match h !! id, h' !! id with
             | Some a, Some a' => a' = SetPosition a (GetPosition a')
             | None, None => True
             | _, _ => False
             end.

(** The second actor has the elevation, the angle, the bounding boxes,
    the pending-destroy flag and the resource of the first. *)
Definition sameBody (a a' : Actor) : Prop :=
  GetElevation a' = GetElevation a /\ GetAngle a' = GetAngle a /\
  GetBoundingBoxes a' = GetBoundingBoxes a /\
  IsPendingDestroy a' = IsPendingDestroy a /\ GetResource a' = GetResource a.

(** A [TileMap::Serialize] and a [JsonHelper::ToJsonValue] for the
    sample scenes. *)
Definition demoTileMapJson (t : TileMap) : Json :=
  JObject [("width", JUint (GetWidth_ t)); ("length", JUint (GetLength_ t))]%string.

Definition demoRectJson (r : Rect) : Json :=
  JObject [("x", JFloat (rx r)); ("y", JFloat (ry r));
           ("width", JFloat (rwidth r)); ("height", JFloat (rheight r))]%string.

(* ===================================================================== *)
(** ** Tactics *)
(* ===================================================================== *)



(* ===================================================================== *)
(** ** Sample scenes *)
(* ===================================================================== *)

Definition demoRenderer : Renderer := mkRenderer (mkPointI 400 300).

(** A 10 x 10 world, four actors per cell. *)
Definition demoScene (p : RenderPerspective) (tileWidth tileHeight : Z) : SceneGraph :=
  SceneGraph_new demoRenderer (mkTileMap 10 10) 4 tileWidth tileHeight p 0.

(** A factory that gives every actor one unit box centred on it. *)
Definition unitBoxFactory (a : Actor) (file : string) : bool * Actor :=
  (true, mkActor (GetPosition a) (GetElevation a) (GetAngle a)
                 (Some [mkRect 0 0 1 1]) false None file).


(** A factory that fails on every resource. *)
Definition failingFactory (a : Actor) (file : string) : bool * Actor := (false, a).

(** Update logic that asks for nothing. *)
Definition idleLogic (id : ActorId) (deltaTime : Q) (sg : SceneGraph) : list Request := [].

(** Update logic in which actor 0 flags itself for destruction. *)
Definition selfDestructLogic (id : ActorId) (deltaTime : Q) (sg : SceneGraph)
  : list Request :=
  if Nat.eqb id 0 then [RequestDestroy 0%nat] else [].

(** Update logic in which actor 0 spawns one actor. *)
Definition spawningLogic (id : ActorId) (deltaTime : Q) (sg : SceneGraph)
  : list Request :=
  if Nat.eqb id 0 then [RequestSpawn "child" (mkPoint 3 3) 0] else [].

(** Two actors, at (1,1) and (2,2). *)
Definition twoActorScene : SceneGraph :=
  let sg0 := demoScene OBLIQUE 32 32 in
  let sg1 := snd (SpawnActor unitBoxFactory sg0 "a" (mkPoint 1 1) 0) in
  snd (SpawnActor unitBoxFactory sg1 "b" (mkPoint 2 2) 0).

(** An actor that was constructed and never inserted. *)
Definition untrackedScene : SceneGraph :=
  set_Heap (demoScene OBLIQUE 32 32) (<[ 7%nat := Actor_new (mkPoint 1 1) 0 ]> ∅).

(** One actor spawned outside the world, at (20, -3). *)
Definition strayActorScene : SceneGraph :=
  snd (SpawnActor unitBoxFactory (demoScene OBLIQUE 32 32) "stray" (mkPoint 20 (-3)) 0).


(* ===================================================================== *)
(** * Properties *)
(* ===================================================================== *)

(** ** Arithmetic of the conversions *)




Lemma fdiv_nonzero (a b : Q) : ~ b == 0 -> fdiv a b = Ok (a / b).
Proof.
  intros H. unfold fdiv. destruct (Qeq_bool b 0) eqn:E; [|reflexivity].
  apply Qeq_bool_iff in E. contradiction.
Qed.

Lemma fdiv_zero (a b : Q) : b == 0 -> fdiv a b = DivByZero.
Proof.
  intros H. unfold fdiv. apply Qeq_bool_iff in H. rewrite H. reflexivity.
Qed.

Lemma inject_Z_nonzero (z : Z) : z <> 0%Z -> ~ inject_Z z == 0.
Proof. intros H E. apply H. unfold Qeq in E. simpl in E. lia. Qed.



(** ** Tile dimensions *)

(** C9: after [SetTileDimensions(w, h)], [GetTileDimensions] returns the
    point [(h, w)]: its X component is the tile height and its Y
    component the tile width, the reverse of the order in which they
    were set. *)
Theorem GetTileDimensions_reversed (sg : SceneGraph) (w h : Z) :
  GetTileDimensions (SetTileDimensions sg w h) = mkPointI h w /\
  Xi (GetTileDimensions (SetTileDimensions sg w h))
    = GetTileHeight (SetTileDimensions sg w h) /\
  Yi (GetTileDimensions (SetTileDimensions sg w h))
    = GetTileWidth (SetTileDimensions sg w h) /\
  GetTileWidth (SetTileDimensions sg w h) = w /\
  GetTileHeight (SetTileDimensions sg w h) = h.
Proof. repeat split. Qed.

(** ** Coordinate transforms *)


(** The conversion to [Point<>] also loses the fraction of the cartesian
    point: under the oblique perspective with 32 x 32 tiles the point
    (1/64, 0) comes back as (0, 0). *)
Lemma roundTrip_truncates :
  exists q,
    roundTrip (demoScene OBLIQUE 32 32) (mkPoint (1 # 64) 0) = Ok q /\
    X q == 0 /\ Y q == 0.
Proof. eexists. repeat split; reflexivity. Qed.



(** ** The cached camera position *)

Lemma SetCameraPosition_cache (sg : SceneGraph) (p : Point) (e : Q) :
  cameraCacheOk (SetCameraPosition sg p e).
Proof.
  unfold cameraCacheOk, cameraProjection, SetCameraPosition, ToCartesianCoord.
  simpl. destruct (m_RenderPerspective sg); split; reflexivity.
Qed.

Lemma SceneGraph_new_cache r t n w h p e :
  cameraCacheOk (SceneGraph_new r t n w h p e).
Proof. unfold SceneGraph_new. apply SetCameraPosition_cache. Qed.

Lemma SetZoom_cache (sg : SceneGraph) (z : Q) :
  cameraCacheOk sg -> cameraCacheOk (SetZoom sg z).
Proof. intros H. exact H. Qed.

Lemma SetRenderPerspective_keeps_cache (sg : SceneGraph) (p : RenderPerspective) :
  m_sCameraPosition (SetRenderPerspective sg p) = m_sCameraPosition sg.
Proof. reflexivity. Qed.

Lemma SetTileDimensions_keeps_cache (sg : SceneGraph) (w h : Z) :
  m_sCameraPosition (SetTileDimensions sg w h) = m_sCameraPosition sg.
Proof. reflexivity. Qed.

(** C5, at the failing input: with 32 x 32 tiles, oblique perspective and
    the camera at (1, 2) the cache holds (32, 64).  Switching to the
    isometric perspective, or setting the tiles to 64 x 64, leaves the
    cache at (32, 64) while the projection becomes (-16, 48), resp.
    (64, 128). *)
Theorem camera_cache_stale :
  let sg := SetCameraPosition (demoScene OBLIQUE 32 32) (mkPoint 1 2) 0 in
  cameraCacheOk sg /\
  Point_eq (m_sCameraPosition (SetRenderPerspective sg ISOMETRIC)) (mkPoint 32 64) /\
  Point_eq (cameraProjection (SetRenderPerspective sg ISOMETRIC)) (mkPoint (-16) 48) /\
  ~ cameraCacheOk (SetRenderPerspective sg ISOMETRIC) /\
  Point_eq (m_sCameraPosition (SetTileDimensions sg 64 64)) (mkPoint 32 64) /\
  Point_eq (cameraProjection (SetTileDimensions sg 64 64)) (mkPoint 64 128) /\
  ~ cameraCacheOk (SetTileDimensions sg 64 64).
Proof.
  cbv zeta. split; [apply SetCameraPosition_cache|].
  repeat split; try reflexivity.
  - intros [H _]. vm_compute in H. discriminate.
  - intros [H _]. vm_compute in H. discriminate.
Qed.

(** ** Divisions by the zoom *)

(** [ToWorldPosition] never divides by a zero zoom: with tiles of
    non-zero size it yields a position whatever the zoom. *)
Lemma ToWorldPosition_guarded (sg : SceneGraph) (s : PointI) :
  m_TileWidth sg <> 0%Z -> m_TileHeight sg <> 0%Z ->
  exists w, ToWorldPosition sg s = Ok w.
Proof.
  intros Hw Hh. apply inject_Z_nonzero in Hw, Hh.
  unfold ToWorldPosition, ToIsometricCoord.
  destruct (m_RenderPerspective sg); rewrite !fdiv_nonzero by assumption; simpl;
    destruct (Qeq_bool (m_Zoom sg) 0) eqn:E; simpl;
    unfold Point_div, fdiv; simpl; rewrite ?E; simpl; eexists; reflexivity.
Qed.

(** C6, at the failing input: with a zero zoom the culling extent of
    [RenderTileMaps] divides by [m_TileWidth * m_Zoom], which is zero. *)
Theorem RenderTileMaps_divides_by_zero_zoom (sg : SceneGraph) :
  cullingBoxExtent (SetZoom sg 0) = DivByZero /\
  cullingWindow (SetZoom sg 0) = DivByZero.
Proof.
  assert (H : cullingBoxExtent (SetZoom sg 0) = DivByZero).
  { unfold cullingBoxExtent. simpl. rewrite fdiv_zero by ring. reflexivity. }
  split; [exact H|]. unfold cullingWindow. rewrite H. reflexivity.
Qed.

(** ** Collision queries *)

(** C10: the direction/distance overloads of [Raycast] and
    [RaycastFirstHit] return the result of the segment overload called
    with end point [o + d * t], and [PickActor(s)] returns
    [RaycastFirstHit(w, w, {})] where [w] is the world position of [s]. *)
Theorem Raycast_overloads_delegate
        (cellRaycast : QuadTreeCell -> Heap -> Point -> Point -> list ActorId -> list ActorId)
        (cellFirstHit : QuadTreeCell -> Heap -> Point -> Point -> list ActorId -> option ActorId)
        (sg : SceneGraph) (o d : Point) (t : Q) (ignore : list ActorId) (s : PointI) :
  Raycast_dir cellRaycast sg o d t ignore
    = Raycast cellRaycast sg o (mkPoint (X o + X d * t) (Y o + Y d * t)) ignore /\
  RaycastFirstHit_dir cellFirstHit sg o d t ignore
    = RaycastFirstHit cellFirstHit sg o (mkPoint (X o + X d * t) (Y o + Y d * t)) ignore /\
  PickActor cellFirstHit sg s
    = (w <- ToWorldPosition sg s ;; Ok (RaycastFirstHit cellFirstHit sg w w [])).
Proof. repeat split. Qed.

(** ** The index *)

Lemma allActors_split (c : QuadTreeCell) :
  allActors c = cellActors c ++ descendantActors c.
Proof. destruct c; simpl; [rewrite app_nil_r|]; reflexivity. Qed.

Lemma allActors_setCellActors (c : QuadTreeCell) (l : list ActorId) :
  allActors (setCellActors c l) = l ++ descendantActors c.
Proof. destruct c; simpl; [rewrite app_nil_r|]; reflexivity. Qed.

Lemma erase_NoDup (id : ActorId) (l : list ActorId) : NoDup l -> id ∉ erase id l.
Proof.
  induction 1 as [|x l Hx Hl IH]; simpl; [set_solver|].
  destruct (Nat.eqb x id) eqn:E.
  - apply Nat.eqb_eq in E. subst. exact Hx.
  - apply Nat.eqb_neq in E. set_solver.
Qed.

Lemma holds_elem_of (id : ActorId) (l : list ActorId) : holds id l = true <-> id ∈ l.
Proof.
  unfold holds. rewrite existsb_exists. split.
  - intros (x & Hx & E). apply Nat.eqb_eq in E. subst. by apply list_elem_of_In.
  - intros H. exists id. split; [by apply list_elem_of_In | apply Nat.eqb_refl].
Qed.

(** What a cell of the tree holds is enumerated from the root. *)
Lemma cellAt_elem_of (path : CellPath) : forall (c k : QuadTreeCell) (x : ActorId),
  cellAt c path = Some k -> x ∈ cellActors k -> x ∈ allActors c.
Proof.
  induction path as [|q path IH]; intros c k x Hc Hx; simpl in Hc.
  - inversion Hc; subst. rewrite allActors_split. set_solver.
  - destruct c as [|r m h c0 c1 c2 c3]; simpl in Hc; [discriminate|].
    specialize (IH _ _ _ Hc Hx). simpl. destruct q; set_solver.
Qed.

(** Erasing a reference from the cell that holds it removes it from the
    enumeration, when the index holds it once. *)
Lemma updateAt_erase_gone (path : CellPath) : forall (c k : QuadTreeCell) (id : ActorId),
  cellAt c path = Some k -> id ∈ cellActors k -> NoDup (allActors c) ->
  id ∉ allActors (updateAt c path (eraseIn id)).
Proof.
  induction path as [|q path IH]; intros c k id Hc Hid Hnd; simpl in *.
  - inversion Hc; subst. unfold eraseIn. rewrite allActors_setCellActors.
    rewrite allActors_split in Hnd. apply NoDup_app in Hnd as (Hh & Hdis & _).
    pose proof (erase_NoDup id _ Hh). set_solver.
  - destruct c as [|r m h c0 c1 c2 c3]; simpl in Hc; [discriminate|].
    pose proof (cellAt_elem_of _ _ _ _ Hc Hid) as Hin.
    simpl in Hnd.
    destruct q; simpl;
      repeat match goal with
             | H : NoDup (_ ++ _) |- _ => apply NoDup_app in H as (? & ? & ?)
             end;
      specialize (IH _ _ id Hc Hid); set_solver.
Qed.

(** [InsertActor] adds the reference to the enumeration and keeps the
    others, whatever nesting it is allowed. *)
Lemma Cell_InsertActor_elem_of (depth : nat) :
  forall (path : CellPath) (c : QuadTreeCell) (id : ActorId) (h : Heap) (x : ActorId),
    x ∈ allActors (Cell_InsertActor depth path c id h).1 <-> x ∈ allActors c \/ x = id.
Proof.
  induction depth as [|depth IH]; intros path c id h x.
  - simpl. rewrite allActors_setCellActors, allActors_split. set_solver.
  - destruct c as [r m hd|r m hd c0 c1 c2 c3]; simpl.
    + destruct (m <? length (hd ++ [id]))%nat.
      * set (f := fun (st : QuadTreeCell * Heap) (a : ActorId) =>
                    Cell_InsertActor depth path st.1 a st.2).
        assert (Hfold : forall (l : list ActorId) (st : QuadTreeCell * Heap),
                   x ∈ allActors (fold_left f l st).1 <-> x ∈ allActors st.1 \/ x ∈ l).
        { induction l as [|a l IHl]; intros st; simpl; [set_solver|].
          rewrite IHl. unfold f. simpl. rewrite IH. set_solver. }
        rewrite Hfold. simpl. set_solver.
      * simpl. set_solver.
    + destruct (fittingQuadrant h id r) as [q|].
      * destruct q; simpl;
          match goal with
          | |- context [Cell_InsertActor depth ?p ?k id h] =>
              pose proof (IH p k id h x) as Hk;
              destruct (Cell_InsertActor depth p k id h) as [k' h']
          end; simpl in *; set_solver.
      * simpl. set_solver.
Qed.

(** What [RemoveActor] does to an actor that its owning cell holds. *)
Lemma RemoveActor_held (sg : SceneGraph) (id : ActorId) (a : Actor)
      (pCell : CellPath) (c : QuadTreeCell) :
  m_Heap sg !! id = Some a -> GetQuadTreeCell a = Some pCell ->
  cellAt (m_QuadTreeRoot sg) pCell = Some c -> id ∈ cellActors c ->
  RemoveActor sg id =
  (true, set_Heap (set_QuadTreeRoot sg (updateAt (m_QuadTreeRoot sg) pCell (eraseIn id)))
                  (setCell (m_Heap sg) id None)).
Proof.
  intros Ha Hcell Hat Hin. unfold RemoveActor. rewrite Ha, Hcell.
  unfold Cell_RemoveActor. rewrite Hat.
  apply holds_elem_of in Hin. rewrite Hin. reflexivity.
Qed.

(** C8: [RemoveActor] on an actor with no owning cell returns failure and
    changes no state; on an actor that its owning cell holds (in an index
    that references each actor once) it returns success, the actor is no
    longer enumerated by the index, and a further removal fails. *)
Theorem RemoveActor_consistent (sg : SceneGraph) (id : ActorId) (a : Actor) :
  m_Heap sg !! id = Some a ->
  (GetQuadTreeCell a = None -> RemoveActor sg id = (false, sg)) /\
  (forall (pCell : CellPath) (c : QuadTreeCell),
      GetQuadTreeCell a = Some pCell ->
      cellAt (m_QuadTreeRoot sg) pCell = Some c ->
      id ∈ cellActors c ->
      NoDup (allActors (m_QuadTreeRoot sg)) ->
      (RemoveActor sg id).1 = true /\
      ~ indexed (RemoveActor sg id).2 id /\
      RemoveActor (RemoveActor sg id).2 id = (false, (RemoveActor sg id).2)).
Proof.
  intros Ha. split.
  - intros Hcell. unfold RemoveActor. rewrite Ha, Hcell. reflexivity.
  - intros pCell c Hcell Hat Hin Hnd.
    pose proof (RemoveActor_held sg id a pCell c Ha Hcell Hat Hin) as E.
    rewrite E. simpl. split; [reflexivity|]. split.
    + unfold indexed, AppendActorList. simpl.
      eapply updateAt_erase_gone; eauto.
    + unfold RemoveActor. simpl. unfold setCell.
      rewrite lookup_alter_eq, Ha. simpl. reflexivity.
Qed.

Lemma RemoveActor_consistent_witness :
  ((RemoveActor twoActorScene 0%nat).1 = true /\
   ~ indexed (RemoveActor twoActorScene 0%nat).2 0%nat /\
   RemoveActor (RemoveActor twoActorScene 0%nat).2 0%nat
     = (false, (RemoveActor twoActorScene 0%nat).2)) /\
  RemoveActor untrackedScene 7%nat = (false, untrackedScene).
Proof.
  split.
  - apply (proj2 (RemoveActor_consistent twoActorScene 0%nat
                    (mkActor (mkPoint 1 1) 0 0 (Some [mkRect 0 0 1 1]) false (Some []) "a")
                    ltac:(vm_compute; reflexivity))
                 [] (Leaf (mkRect (- (1 # 2)) (- (1 # 2)) 10 10) 4 [0%nat; 1%nat])).
    + reflexivity.
    + vm_compute; reflexivity.
    + apply list_elem_of_here.
    + vm_compute. repeat constructor; set_solver.
  - apply (proj1 (RemoveActor_consistent untrackedScene 7%nat
                    (Actor_new (mkPoint 1 1) 0) ltac:(vm_compute; reflexivity))).
    reflexivity.
Defined.

(** ** Containment in the world bounds *)












(** The clamp leaves alone the actors that the root cell does not hold. *)
Lemma clampAll_frame (root : Rect) (id : ActorId) (ids : list ActorId) :
  forall h : Heap, id ∉ ids -> clampAll root ids h !! id = h !! id.
Proof.
  induction ids as [|x ids IH]; intros h Hn; simpl; [reflexivity|].
  rewrite IH by set_solver. apply lookup_alter_ne. set_solver.
Qed.



(** The stray actor ends at (9, 0): its unit box touches the right and
    the top edges of the world. *)
Lemma ClampActorsToBounds_stray :
  exists a',
    m_Heap (ClampActorsToBounds strayActorScene) !! 0%nat = Some a' /\
    Point_eq (GetPosition a') (mkPoint 9 0).
Proof. eexists. split; [vm_compute; reflexivity|]. split; reflexivity. Qed.


(** The clamping phase changes no actor outside the list of the root. *)
Lemma ClampActorsToBounds_frame (sg : SceneGraph) (id : ActorId) :
  id ∉ cellActors (m_QuadTreeRoot sg) ->
  m_Heap (ClampActorsToBounds sg) !! id = m_Heap sg !! id.
Proof. intros H. simpl. apply clampAll_frame. exact H. Qed.

(** ** Actor lifecycle *)

Lemma setCell_dom (h : Heap) (id : ActorId) (c : option CellPath) :
  dom (setCell h id c) = dom h.
Proof. unfold setCell. apply dom_alter_L. Qed.

(** [InsertActor] allocates and frees nothing. *)
Lemma Cell_InsertActor_dom (depth : nat) :
  forall (path : CellPath) (c : QuadTreeCell) (id : ActorId) (h : Heap),
    dom (Cell_InsertActor depth path c id h).2 = dom h.
Proof.
  induction depth as [|depth IH]; intros path c id h.
  - simpl. apply setCell_dom.
  - destruct c as [r m hd|r m hd c0 c1 c2 c3]; simpl.
    + destruct (m <? length (hd ++ [id]))%nat; simpl; [|apply setCell_dom].
      set (f := fun (st : QuadTreeCell * Heap) (a : ActorId) =>
                  Cell_InsertActor depth path st.1 a st.2).
      assert (Hfold : forall (l : list ActorId) (st : QuadTreeCell * Heap),
                 dom (fold_left f l st).2 = dom st.2).
      { induction l as [|a l IHl]; intros st; simpl; [reflexivity|].
        rewrite IHl. unfold f. simpl. apply IH. }
      rewrite Hfold. simpl. apply setCell_dom.
    + destruct (fittingQuadrant h id r) as [q|]; simpl; [|apply setCell_dom].
      destruct q; simpl;
        match goal with
        | |- context [Cell_InsertActor depth ?p ?k id h] =>
            pose proof (IH p k id h) as Hk;
            destruct (Cell_InsertActor depth p k id h) as [k' h']
        end; simpl in *; exact Hk.
Qed.

Lemma AddActor_registry (sg : SceneGraph) (id : ActorId) (a : Actor) :
  (AddActor sg id a).1 = id /\
  m_IsUpdatingActors (AddActor sg id a).2 = m_IsUpdatingActors sg /\
  m_Actors (AddActor sg id a).2
    = (if m_IsUpdatingActors sg then m_Actors sg else m_Actors sg ++ [id]) /\
  m_NewActors (AddActor sg id a).2
    = (if m_IsUpdatingActors sg then m_NewActors sg ++ [id] else m_NewActors sg) /\
  dom (m_Heap (AddActor sg id a).2) = {[ id ]} ∪ dom (m_Heap sg) /\
  indexed (AddActor sg id a).2 id.
Proof.
  unfold AddActor. generalize InsertDepth. intros depth.
  destruct sg as [rr hp ac tm tw th hw hh zm wc we sc rt ps na up].
  simpl. destruct up; simpl;
    match goal with
    | |- context [Cell_InsertActor ?d ?p ?c ?i ?h] =>
        pose proof (Cell_InsertActor_dom d p c i h) as Hd;
        pose proof (proj2 (Cell_InsertActor_elem_of d p c i h i) (or_intror eq_refl)) as He;
        destruct (Cell_InsertActor d p c i h) as [root' h']
    end; simpl in *; rewrite Hd, dom_insert_L; repeat split; exact He.
Qed.

Lemma passStep_refl (s : SceneGraph) : m_IsUpdatingActors s = true -> passStep s s.
Proof. intros H. repeat split; auto. Qed.

Lemma passStep_trans (s1 s2 s3 : SceneGraph) :
  passStep s1 s2 -> passStep s2 s3 -> passStep s1 s3.
Proof.
  intros (F1 & A1 & D1 & N1) (F2 & A2 & D2 & N2). repeat split.
  - exact F2.
  - congruence.
  - set_solver.
  - intros id Hid. destruct (N2 id Hid) as [H|H]; [auto|]. right. set_solver.
Qed.

Lemma fold_passStep {A : Type} (f : SceneGraph -> A -> SceneGraph) (l : list A) :
  (forall s x, m_IsUpdatingActors s = true -> passStep s (f s x)) ->
  forall s, m_IsUpdatingActors s = true -> passStep s (fold_left f l s).
Proof.
  intros Hf. induction l as [|x l IH]; intros s Hs; simpl.
  - by apply passStep_refl.
  - pose proof (Hf s x Hs) as H1.
    eapply passStep_trans; [exact H1|]. apply IH. apply H1.
Qed.

Lemma DestroyPendingActors_registry (sg : SceneGraph) :
  m_Actors (DestroyPendingActors sg)
  = List.filter (pendingDestroy (m_Heap sg)) (m_Actors sg).
Proof.
  unfold DestroyPendingActors. rewrite partition_as_filter. reflexivity.
Qed.

Section Lifecycle.

Variable factory : Actor -> string -> bool * Actor.

(** On the untyped entry points a failure of the factory yields no
    reference and leaves the scene as it was. *)
Lemma SpawnActor_failure (sg : SceneGraph) (file : string) (p : Point) (e : Q) :
  (factory (Actor_new p e) file).1 = false ->
  SpawnActor factory sg file p e = (None, sg) /\
  SpawnActor_default factory sg file = SpawnActor factory sg file (mkPoint 0 0) 0.
Proof.
  intros H. split; [|reflexivity]. unfold SpawnActor.
  destruct (factory (Actor_new p e) file) as [ok a]. simpl in H. subst ok. reflexivity.
Qed.

(** C4, on the typed entry point: when the factory fails,
    [SpawnActor<ActorType>] still returns a reference and the actor is
    added to the registry (or to the deferred buffer) and to the index. *)
Theorem SpawnActor_typed_ignores_failure (sg : SceneGraph) (jsonResource : string)
        (constructed : Actor) :
  (factory constructed jsonResource).1 = false ->
  (SpawnActor_typed factory sg jsonResource constructed).1 = Some (newActorId sg) /\
  newActorId sg ∈ m_Actors (SpawnActor_typed factory sg jsonResource constructed).2
                  ++ m_NewActors (SpawnActor_typed factory sg jsonResource constructed).2 /\
  indexed (SpawnActor_typed factory sg jsonResource constructed).2 (newActorId sg).
Proof.
  intros _. unfold SpawnActor_typed.
  destruct (factory constructed jsonResource) as [ok a].
  pose proof (AddActor_registry sg (newActorId sg) a) as (_ & _ & Hr & Hn & _ & Hi).
  destruct (AddActor sg (newActorId sg) a) as [ref sg']. simpl in *.
  split; [reflexivity|]. split; [|exact Hi].
  rewrite Hr, Hn. destruct (m_IsUpdatingActors sg); set_solver.
Qed.

Lemma perform_passStep (s : SceneGraph) (r : Request) :
  m_IsUpdatingActors s = true -> passStep s (perform factory s r).
Proof.
  intros Hs. destruct r as [file p e|target]; simpl.
  - unfold SpawnActor.
    destruct (factory (Actor_new p e) file) as [[|] a]; simpl;
      [|by apply passStep_refl].
    pose proof (AddActor_registry s (newActorId s) a) as (_ & Hf & Hr & Hn & Hd & _).
    destruct (AddActor s (newActorId s) a) as [ref s']. simpl in *.
    rewrite Hs in *. repeat split.
    + exact Hf.
    + exact Hr.
    + set_solver.
    + intros id Hid. rewrite Hn in Hid. apply elem_of_app in Hid as [Hid|Hid]; [auto|].
      apply list_elem_of_singleton in Hid. subst id. right.
      unfold newActorId. apply is_fresh.
  - repeat split; simpl; auto. rewrite dom_alter_L. done.
Qed.

Variable logic : ActorId -> Q -> SceneGraph -> list Request.

Lemma UpdateActors_passStep (deltaTime : Q) (s : SceneGraph) :
  m_IsUpdatingActors s = true ->
  passStep s (UpdateActors factory logic deltaTime s).
Proof.
  intros Hs. unfold UpdateActors. apply fold_passStep; [|exact Hs].
  intros s' id Hs'. unfold UpdateActor. apply fold_passStep; [|exact Hs'].
  intros s'' r. apply perform_passStep.
Qed.

(** The update pass runs the logic of the actors of [m_Actors], and that
    list is the same at the end of the pass: an actor spawned during the
    pass joins the deferred buffer and is not among the actors that the
    pass updates. *)
Lemma spawned_not_updated (deltaTime : Q) (sg : SceneGraph) (id : ActorId) :
  (forall x, x ∈ m_Actors sg -> x ∈ dom (m_Heap sg)) ->
  let pass := UpdateActors factory logic deltaTime (set_IsUpdatingActors sg true) in
  m_Actors pass = m_Actors sg /\
  (id ∈ m_NewActors pass -> id ∉ m_NewActors sg -> id ∉ m_Actors sg).
Proof.
  intros Hreg pass.
  destruct (UpdateActors_passStep deltaTime (set_IsUpdatingActors sg true) eq_refl)
    as (_ & Ha & _ & Hn).
  split; [exact Ha|]. intros Hid Hnew Hin.
  destruct (Hn id Hid) as [H|H]; [exact (Hnew H)|]. apply H. simpl. auto.
Qed.

End Lifecycle.

Lemma SpawnActor_typed_ignores_failure_witness :
  (SpawnActor_typed failingFactory (demoScene OBLIQUE 32 32) "missing.json"
                    (Actor_new (mkPoint 1 1) 0)).1
    = Some (newActorId (demoScene OBLIQUE 32 32)) /\
  newActorId (demoScene OBLIQUE 32 32)
    ∈ m_Actors (SpawnActor_typed failingFactory (demoScene OBLIQUE 32 32) "missing.json"
                                 (Actor_new (mkPoint 1 1) 0)).2
      ++ m_NewActors (SpawnActor_typed failingFactory (demoScene OBLIQUE 32 32)
                                       "missing.json" (Actor_new (mkPoint 1 1) 0)).2 /\
  indexed (SpawnActor_typed failingFactory (demoScene OBLIQUE 32 32) "missing.json"
                            (Actor_new (mkPoint 1 1) 0)).2
          (newActorId (demoScene OBLIQUE 32 32)).
Proof.
  apply (SpawnActor_typed_ignores_failure failingFactory (demoScene OBLIQUE 32 32)
           "missing.json" (Actor_new (mkPoint 1 1) 0)).
  reflexivity.
Defined.

(** With the same failing factory the untyped entry point returns no
    reference and registers nothing. *)
Lemma SpawnActor_failure_example :
  SpawnActor failingFactory (demoScene OBLIQUE 32 32) "missing.json" (mkPoint 1 1) 0
  = (None, demoScene OBLIQUE 32 32).
Proof. apply SpawnActor_failure. reflexivity. Qed.

(** ** The flush at the end of [Update] *)

(** C1, at the failing input: the registry holds actors 0 and 1, and the
    update logic of actor 0 flags actor 0 for destruction.  When [Update]
    returns, actor 0 is still flagged, registered and indexed, while
    actor 1, which was never flagged, has been removed from the registry
    and from the index and released. *)
Theorem Update_keeps_pending_destroys_live :
  let sg := Update unitBoxFactory selfDestructLogic twoActorScene 1 in
  m_Actors twoActorScene = [0%nat; 1%nat] /\
  pendingDestroy (m_Heap twoActorScene) 0%nat = false /\
  pendingDestroy (m_Heap sg) 0%nat = true /\
  m_Actors sg = [0%nat] /\
  AppendActorList (m_QuadTreeRoot sg) [] true = [0%nat] /\
  m_Heap sg !! 1%nat = None.
Proof. vm_compute. repeat split. Qed.

(** C7, at the failing input: the registry holds actors 0 and 1, and the
    update logic of actor 0 spawns an actor.  During the pass the new
    actor 2 sits in the deferred buffer and in the index, and the
    registry that the pass traverses is unchanged; when [Update] returns
    actor 2 is in neither the registry nor the index and has been
    released. *)
Theorem Update_drops_spawned_actor :
  let pass := UpdateActors unitBoxFactory spawningLogic 1
                           (set_IsUpdatingActors twoActorScene true) in
  let sg := Update unitBoxFactory spawningLogic twoActorScene 1 in
  m_Actors pass = [0%nat; 1%nat] /\
  m_NewActors pass = [2%nat] /\
  AppendActorList (m_QuadTreeRoot pass) [] true = [0%nat; 1%nat; 2%nat] /\
  pendingDestroy (m_Heap pass) 2%nat = false /\
  m_Actors sg = [] /\
  AppendActorList (m_QuadTreeRoot sg) [] true = [] /\
  m_Heap sg !! 2%nat = None.
Proof. vm_compute. repeat split. Qed.

(** ** The index and the back-references agree *)

Lemma cellAt_setCellActors_cons (c : QuadTreeCell) (l : list ActorId) (q : Quadrant)
      (r : CellPath) :
  cellAt (setCellActors c l) (q :: r) = cellAt c (q :: r).
Proof. destruct c; reflexivity. Qed.

Lemma elem_of_allActors (c : QuadTreeCell) (x : ActorId) :
  x ∈ allActors c <-> exists q k, cellAt c q = Some k /\ x ∈ cellActors k.
Proof.
  split.
  - induction c as [r m hd|r m hd c0 IH0 c1 IH1 c2 IH2 c3 IH3]; simpl; intros H.
    + exists [], (Leaf r m hd). split; [reflexivity|exact H].
    + rewrite !elem_of_app in H. destruct H as [H|[H|[H|[H|H]]]].
      * exists [], (Node r m hd c0 c1 c2 c3). split; [reflexivity|exact H].
      * destruct (IH0 H) as (q & k & Hq & Hk). exists (TopLeft :: q), k. auto.
      * destruct (IH1 H) as (q & k & Hq & Hk). exists (TopRight :: q), k. auto.
      * destruct (IH2 H) as (q & k & Hq & Hk). exists (BottomLeft :: q), k. auto.
      * destruct (IH3 H) as (q & k & Hq & Hk). exists (BottomRight :: q), k. auto.
  - intros (q & k & Hq & Hk). eapply cellAt_elem_of; eauto.
Qed.

Lemma setCell_lookup_eq (h : Heap) (id : ActorId) (v : option CellPath) (a : Actor) :
  h !! id = Some a -> setCell h id v !! id = Some (SetQuadTreeCell a v).
Proof. intros H. unfold setCell. rewrite lookup_alter_eq, H. reflexivity. Qed.

Lemma setCell_lookup_ne (h : Heap) (id x : ActorId) (v : option CellPath) :
  x <> id -> setCell h id v !! x = h !! x.
Proof. intros H. unfold setCell. apply lookup_alter_ne. congruence. Qed.

Lemma insertOk_hold (path : CellPath) (c : QuadTreeCell) (id : ActorId) (h : Heap) :
  NoDup (allActors c) -> id ∉ allActors c -> is_Some (h !! id) ->
  backRefsOk h path c ->
  NoDup (allActors (setCellActors c (cellActors c ++ [id]))) /\
  backRefsOk (setCell h id (Some path)) path (setCellActors c (cellActors c ++ [id])) /\
  (forall x, x ∉ allActors c -> x <> id -> setCell h id (Some path) !! x = h !! x).
Proof.
  intros Hnd Hid [a Ha] Hb. split; [|split].
  - rewrite allActors_setCellActors. rewrite allActors_split in Hnd, Hid.
    apply NoDup_app in Hnd as (H1 & H2 & H3).
    apply NoDup_app. split; [|split].
    + apply NoDup_app. split; [exact H1|]. split; [set_solver|]. apply NoDup_singleton.
    + set_solver.
    + exact H3.
  - intros q k x Hq Hx. destruct q as [|q0 r].
    + simpl in Hq. inversion Hq; subst k. clear Hq.
      assert (Hx' : x ∈ cellActors c ++ [id]) by (destruct c; exact Hx).
      apply elem_of_app in Hx' as [Hx'|Hx'].
      * assert (x <> id).
        { intros ->. apply Hid. rewrite allActors_split. set_solver. }
        rewrite setCell_lookup_ne by done. apply (Hb [] c x); [reflexivity|exact Hx'].
      * apply list_elem_of_singleton in Hx'. subst x.
        exists (SetQuadTreeCell a (Some path)). split.
        -- by apply setCell_lookup_eq.
        -- simpl. by rewrite app_nil_r.
    + rewrite cellAt_setCellActors_cons in Hq.
      assert (x <> id).
      { intros ->. apply Hid. eapply cellAt_elem_of; eauto. }
      rewrite setCell_lookup_ne by done. eapply Hb; eauto.
  - intros x _ Hx. by apply setCell_lookup_ne.
Qed.

Lemma backRefsOk_child (h : Heap) (path : CellPath) (c k : QuadTreeCell) (q : Quadrant) :
  child c q = Some k -> backRefsOk h path c -> backRefsOk h (path ++ [q]) k.
Proof.
  intros Hc Hb r k' x Hr Hx. rewrite <- app_assoc. simpl.
  apply (Hb (q :: r) k' x); [|exact Hx]. simpl. rewrite Hc. exact Hr.
Qed.

Lemma insertOk_descend (path : CellPath) (r : Rect) (m : nat) (hd : list ActorId)
      (c0 c1 c2 c3 : QuadTreeCell) (q : Quadrant) (k k' : QuadTreeCell)
      (id : ActorId) (h h' : Heap) :
  child (Node r m hd c0 c1 c2 c3) q = Some k ->
  NoDup (allActors (Node r m hd c0 c1 c2 c3)) ->
  id ∉ allActors (Node r m hd c0 c1 c2 c3) ->
  backRefsOk h path (Node r m hd c0 c1 c2 c3) ->
  (forall x, x ∈ allActors k' <-> x ∈ allActors k \/ x = id) ->
  NoDup (allActors k') ->
  backRefsOk h' (path ++ [q]) k' ->
  (forall x, x ∉ allActors k -> x <> id -> h' !! x = h !! x) ->
  NoDup (allActors (setChild (Node r m hd c0 c1 c2 c3) q k')) /\
  backRefsOk h' path (setChild (Node r m hd c0 c1 c2 c3) q k') /\
  (forall x, x ∉ allActors (Node r m hd c0 c1 c2 c3) -> x <> id -> h' !! x = h !! x).
Proof.
  intros Hc Hnd Hid Hb Hel Hnd' Hb' Hfr.
  assert (Hsub : forall x, x ∈ allActors k -> x ∈ allActors (Node r m hd c0 c1 c2 c3)).
  { intros x Hx. simpl. destruct q; simpl in Hc; inversion Hc; subst; set_solver. }
  split; [|split].
  - simpl in Hnd, Hid.
    repeat match goal with
           | H : NoDup (_ ++ _) |- _ => apply NoDup_app in H as (? & ? & ?)
           end.
    destruct q; simpl in Hc; inversion Hc; subst k; simpl;
      repeat (apply NoDup_app; split; [|split]); try assumption; set_solver.
  - intros p k0 x Hp Hx.
    assert (Hin : x ∈ allActors (setChild (Node r m hd c0 c1 c2 c3) q k'))
      by (eapply cellAt_elem_of; eauto).
    destruct p as [|q' p'].
    + (* the node itself *)
      assert (Hxh : x ∈ hd).
      { simpl in Hp. destruct q; inversion Hp; subst k0; exact Hx. }
      assert (Hxk : x ∉ allActors k).
      { simpl in Hnd. intros Hxk.
        repeat match goal with
               | H : NoDup (_ ++ _) |- _ => apply NoDup_app in H as (? & ? & ?)
               end.
        destruct q; simpl in Hc; inversion Hc; subst k; set_solver. }
      assert (x <> id) by (intros ->; apply Hid; simpl; set_solver).
      rewrite Hfr by assumption.
      apply (Hb [] (Node r m hd c0 c1 c2 c3) x); [reflexivity|exact Hxh].
    + destruct (decide (q' = q)) as [->|Hne].
      * assert (Hp' : cellAt k' p' = Some k0).
        { destruct q; simpl in Hp; exact Hp. }
        destruct (Hb' p' k0 x Hp' Hx) as (a & Ha & Hcell).
        exists a. split; [exact Ha|]. rewrite <- app_assoc in Hcell. exact Hcell.
      * assert (Hp' : cellAt (Node r m hd c0 c1 c2 c3) (q' :: p') = Some k0).
        { destruct q, q'; simpl in *; congruence. }
        assert (Hxc : x ∈ allActors (Node r m hd c0 c1 c2 c3))
          by (eapply cellAt_elem_of; eauto).
        assert (Hxk : x ∉ allActors k).
        { intros Hxk.
          assert (Hxq : exists kq, child (Node r m hd c0 c1 c2 c3) q' = Some kq /\
                                   x ∈ allActors kq).
          { simpl in Hp'. destruct q'; (eexists; split; [reflexivity|]);
              eapply cellAt_elem_of; eauto. }
          destruct Hxq as (kq & Hkq & Hxq).
          simpl in Hnd.
          repeat match goal with
                 | H : NoDup (_ ++ _) |- _ => apply NoDup_app in H as (? & ? & ?)
                 end.
          destruct q, q'; simpl in Hc, Hkq; inversion Hc; inversion Hkq; subst;
            try congruence; set_solver. }
        assert (x <> id) by (intros ->; exact (Hid Hxc)).
        rewrite Hfr by assumption. eapply Hb; eauto.
  - intros x Hx Hne. apply Hfr; [|exact Hne]. intros Hxk. apply Hx. by apply Hsub.
Qed.

Lemma insertOk_fold (depth : nat) (path : CellPath) :
  insertOk depth ->
  forall (l : list ActorId) (n : QuadTreeCell) (hh : Heap),
    NoDup l -> NoDup (allActors n) ->
    (forall x, x ∈ l -> x ∉ allActors n) ->
    (forall x, x ∈ l -> is_Some (hh !! x)) ->
    backRefsOk hh path n ->
    let st := fold_left (fun (st : QuadTreeCell * Heap) (a : ActorId) =>
                           Cell_InsertActor depth path st.1 a st.2) l (n, hh) in
    NoDup (allActors st.1) /\
    backRefsOk st.2 path st.1 /\
    (forall x, x ∉ allActors n -> x ∉ l -> st.2 !! x = hh !! x).
Proof.
  intros IH. induction l as [|a l IHl]; intros n hh Hl Hn Hdis Hsome Hb; simpl.
  - auto.
  - apply NoDup_cons in Hl as [Ha Hl].
    destruct (IH path n a hh Hn) as (Hn1 & Hb1 & Hf1);
      [apply Hdis; set_solver | apply Hsome; set_solver | exact Hb |].
    pose proof (Cell_InsertActor_elem_of depth path n a hh) as Hel.
    pose proof (Cell_InsertActor_dom depth path n a hh) as Hdom.
    destruct (Cell_InsertActor depth path n a hh) as [n1 h1]. simpl in *.
    destruct (IHl n1 h1 Hl Hn1) as (Hn2 & Hb2 & Hf2).
    + intros x Hx Hx1. apply Hel in Hx1 as [Hx1| ->]; [|done].
      apply (Hdis x); [set_solver|exact Hx1].
    + intros x Hx. apply elem_of_dom. rewrite Hdom. apply elem_of_dom.
      apply Hsome. set_solver.
    + exact Hb1.
    + split; [exact Hn2|]. split; [exact Hb2|].
      intros x Hx Hxl. rewrite Hf2.
      * apply Hf1; [exact Hx|set_solver].
      * rewrite Hel. set_solver.
      * set_solver.
Qed.

Lemma backRefsOk_fresh_node (h : Heap) (path : CellPath) (r : Rect) (m : nat) :
  backRefsOk h path
    (Node r m []
          (Leaf (quadrantRegion r TopLeft) m [])
          (Leaf (quadrantRegion r TopRight) m [])
          (Leaf (quadrantRegion r BottomLeft) m [])
          (Leaf (quadrantRegion r BottomRight) m [])).
Proof.
  intros q k x Hq Hx. exfalso.
  destruct q as [|q0 [|q1 q]]; simpl in Hq.
  - inversion Hq; subst k. simpl in Hx. set_solver.
  - destruct q0; inversion Hq; subst k; simpl in Hx; set_solver.
  - destruct q0; simpl in Hq; discriminate.
Qed.

Theorem Cell_InsertActor_ok (depth : nat) : insertOk depth.
Proof.
  induction depth as [|depth IH]; intros path c id h Hnd Hid Hsome Hb.
  - simpl. by apply insertOk_hold.
  - destruct c as [r m hd|r m hd c0 c1 c2 c3].
    + cbn [Cell_InsertActor].
      destruct (m <? length (hd ++ [id]))%nat.
      * simpl in Hnd, Hid.
        assert (Hb1 : forall x, x ∈ hd -> is_Some (h !! x)).
        { intros x Hx. destruct (Hb [] (Leaf r m hd) x eq_refl Hx) as (a & Ha & _).
          rewrite Ha. eauto. }
        edestruct (insertOk_fold depth path IH (hd ++ [id])) as (H1 & H2 & H3);
          [| | | |apply (backRefsOk_fresh_node (setCell h id (Some path)) path r m)|].
        -- apply NoDup_app. split; [exact Hnd|]. split; [set_solver|apply NoDup_singleton].
        -- simpl. apply NoDup_nil_2.
        -- simpl. set_solver.
        -- intros x Hx. apply elem_of_dom. rewrite setCell_dom. apply elem_of_dom.
           apply elem_of_app in Hx as [Hx|Hx]; [by apply Hb1|].
           apply list_elem_of_singleton in Hx. by subst x.
        -- split; [exact H1|]. split; [exact H2|].
           intros x Hx Hne. rewrite H3.
           ++ by apply setCell_lookup_ne.
           ++ simpl. set_solver.
           ++ simpl in Hx. set_solver.
      * change (Leaf r m (hd ++ [id]))
          with (setCellActors (Leaf r m hd) (cellActors (Leaf r m hd) ++ [id])).
        by apply insertOk_hold.
    + cbn [Cell_InsertActor].
      destruct (fittingQuadrant h id r) as [q|].
      * assert (Hk : exists k, child (Node r m hd c0 c1 c2 c3) q = Some k)
          by (simpl; eauto).
        destruct Hk as [k Hk]. rewrite Hk.
        assert (Hsub : forall x, x ∈ allActors k -> x ∈ allActors (Node r m hd c0 c1 c2 c3)).
        { intros x Hx. simpl. destruct q; simpl in Hk; inversion Hk; subst; set_solver. }
        assert (Hndk : NoDup (allActors k)).
        { simpl in Hnd.
          repeat match goal with
                 | H : NoDup (_ ++ _) |- _ => apply NoDup_app in H as (? & ? & ?)
                 end.
          destruct q; simpl in Hk; inversion Hk; subst; assumption. }
        destruct (IH (path ++ [q]) k id h Hndk) as (H1 & H2 & H3);
          [intros Hx; apply Hid; by apply Hsub | exact Hsome
          | eapply backRefsOk_child; eauto |].
        pose proof (Cell_InsertActor_elem_of depth (path ++ [q]) k id h) as Hel.
        destruct (Cell_InsertActor depth (path ++ [q]) k id h) as [k' h'].
        simpl in *. eapply insertOk_descend; eauto.
      * change (Node r m (hd ++ [id]) c0 c1 c2 c3)
          with (setCellActors (Node r m hd c0 c1 c2 c3)
                              (cellActors (Node r m hd c0 c1 c2 c3) ++ [id])).
        by apply insertOk_hold.
Qed.

Lemma erase_elem_of (id x : ActorId) (l : list ActorId) : x ∈ erase id l -> x ∈ l.
Proof.
  induction l as [|y l IH]; simpl; [done|].
  destruct (Nat.eqb y id); set_solver.
Qed.

Lemma erase_elem_of_ne (id x : ActorId) (l : list ActorId) :
  x ∈ l -> x <> id -> x ∈ erase id l.
Proof.
  induction l as [|y l IH]; simpl; [done|]. intros Hx Hne.
  destruct (Nat.eqb y id) eqn:E.
  - apply Nat.eqb_eq in E. set_solver.
  - set_solver.
Qed.

Lemma erase_NoDup_keep (id : ActorId) (l : list ActorId) : NoDup l -> NoDup (erase id l).
Proof.
  induction 1 as [|y l Hy Hl IH]; simpl; [constructor|].
  destruct (Nat.eqb y id); [exact Hl|].
  constructor; [|exact IH]. intros H. apply Hy. by eapply erase_elem_of.
Qed.

Lemma allActors_updateAt_erase (id : ActorId) (p : CellPath) : forall c : QuadTreeCell,
  (forall x, x ∈ allActors (updateAt c p (eraseIn id)) -> x ∈ allActors c) /\
  (forall x, x ∈ allActors c -> x <> id -> x ∈ allActors (updateAt c p (eraseIn id))) /\
  (NoDup (allActors c) -> NoDup (allActors (updateAt c p (eraseIn id)))).
Proof.
  induction p as [|q p IH]; intros c; simpl.
  - unfold eraseIn. rewrite allActors_setCellActors, allActors_split.
    split; [|split].
    + intros x Hx. apply elem_of_app in Hx as [Hx|Hx]; [|set_solver].
      apply erase_elem_of in Hx. set_solver.
    + intros x Hx Hne. apply elem_of_app in Hx as [Hx|Hx]; [|set_solver].
      apply elem_of_app. left. by apply erase_elem_of_ne.
    + intros Hnd. apply NoDup_app in Hnd as (H1 & H2 & H3).
      apply NoDup_app. split; [by apply erase_NoDup_keep|]. split; [|exact H3].
      intros x Hx. apply H2. by eapply erase_elem_of.
  - destruct c as [r m hd|r m hd c0 c1 c2 c3]; simpl; [tauto|].
    destruct q; simpl;
      match goal with
      | |- context [updateAt ?k p (eraseIn id)] =>
          destruct (IH k) as (I1 & I2 & I3)
      end;
      (split; [|split]);
      [ set_solver | set_solver
      | intros Hnd;
        repeat match goal with
               | H : NoDup (_ ++ _) |- _ => apply NoDup_app in H as (? & ? & ?)
               end;
        repeat (apply NoDup_app; split; [|split]); auto; set_solver ..].
Qed.

Lemma cellAt_updateAt_erase (id : ActorId) (p : CellPath) :
  forall (c : QuadTreeCell) (q : CellPath) (k' : QuadTreeCell),
    cellAt (updateAt c p (eraseIn id)) q = Some k' ->
    exists k, cellAt c q = Some k /\ forall x, x ∈ cellActors k' -> x ∈ cellActors k.
Proof.
  induction p as [|p0 p IH]; intros c q k' Hq; simpl in Hq.
  - destruct q as [|q0 r].
    + simpl in Hq. inversion Hq; subst k'. exists c. split; [reflexivity|].
      intros x Hx. unfold eraseIn in Hx.
      assert (Hx' : x ∈ erase id (cellActors c)) by (destruct c; exact Hx).
      by eapply erase_elem_of.
    + unfold eraseIn in Hq. rewrite cellAt_setCellActors_cons in Hq. eauto.
  - destruct c as [r m hd|r m hd c0 c1 c2 c3]; simpl in Hq; [eauto|].
    destruct q as [|q0 q].
    + exists (Node r m hd c0 c1 c2 c3). split; [reflexivity|].
      destruct p0; simpl in Hq; inversion Hq; subst k'; simpl; auto.
    + destruct p0, q0; simpl in Hq |- *; eauto.
Qed.

Lemma indexOk_owner (sg : SceneGraph) (id : ActorId) (a : Actor) (p : CellPath) :
  indexOk sg -> m_Heap sg !! id = Some a -> GetQuadTreeCell a = Some p ->
  exists c, cellAt (m_QuadTreeRoot sg) p = Some c /\ id ∈ cellActors c.
Proof.
  intros (Hnd & Hb & Hin) Ha Hp.
  assert (Hid : id ∈ allActors (m_QuadTreeRoot sg)).
  { apply (Hin id a Ha). rewrite Hp. eauto. }
  apply elem_of_allActors in Hid as (q & k & Hq & Hk).
  destruct (Hb q k id Hq Hk) as (a' & Ha' & Hc').
  rewrite Ha in Ha'. inversion Ha'; subst a'. simpl in Hc'.
  rewrite Hp in Hc'. inversion Hc'; subst q. eauto.
Qed.

Lemma indexOk_in_heap (sg : SceneGraph) (id : ActorId) :
  indexOk sg -> id ∈ allActors (m_QuadTreeRoot sg) ->
  exists a, m_Heap sg !! id = Some a /\ is_Some (GetQuadTreeCell a).
Proof.
  intros (_ & Hb & _) Hid.
  apply elem_of_allActors in Hid as (q & k & Hq & Hk).
  destruct (Hb q k id Hq Hk) as (a & Ha & Hc). exists a. rewrite Hc. eauto.
Qed.

Lemma SceneGraph_new_indexOk r t n w h p e : indexOk (SceneGraph_new r t n w h p e).
Proof.
  unfold indexOk. simpl. split; [apply NoDup_nil_2|]. split.
  - intros q k x Hq Hx. exfalso. destruct q as [|q0 q]; simpl in Hq; [|discriminate].
    inversion Hq; subst k. simpl in Hx. set_solver.
  - intros id a Ha. rewrite lookup_empty in Ha. discriminate.
Qed.

Lemma AddActor_indexOk (sg : SceneGraph) (id : ActorId) (a : Actor) :
  indexOk sg -> m_Heap sg !! id = None -> indexOk (AddActor sg id a).2.
Proof.
  intros Hok Hfresh.
  assert (Hid : id ∉ allActors (m_QuadTreeRoot sg)).
  { intros Hid. destruct (indexOk_in_heap sg id Hok Hid) as (a' & Ha' & _). congruence. }
  destruct Hok as (Hnd & Hb & Hin).
  unfold AddActor. generalize InsertDepth. intros depth.
  set (h0 := <[id := a]> (m_Heap sg)).
  assert (Hb0 : backRefsOk h0 [] (m_QuadTreeRoot sg)).
  { intros q k x Hq Hx. destruct (Hb q k x Hq Hx) as (a' & Ha' & Hc').
    exists a'. split; [|exact Hc']. unfold h0. rewrite lookup_insert_ne; [exact Ha'|].
    intros ->. congruence. }
  destruct (Cell_InsertActor_ok depth [] (m_QuadTreeRoot sg) id h0 Hnd Hid)
    as (H1 & H2 & H3); [unfold h0; rewrite lookup_insert_eq; eauto | exact Hb0 |].
  pose proof (Cell_InsertActor_elem_of depth [] (m_QuadTreeRoot sg) id h0) as Hel.
  assert (E : forall s : SceneGraph,
             m_QuadTreeRoot s = m_QuadTreeRoot sg -> m_Heap s = h0 ->
             indexOk (snd (let (root', h') :=
                             Cell_InsertActor depth [] (m_QuadTreeRoot s) id (m_Heap s) in
                           (id, set_Heap (set_QuadTreeRoot s root') h')))).
  { intros s Hr Hh. rewrite Hr, Hh.
    destruct (Cell_InsertActor depth [] (m_QuadTreeRoot sg) id h0) as [root' h'].
    simpl in *. split; [exact H1|]. split; [exact H2|].
    intros x ax Hx Hc. apply Hel.
    destruct (decide (x = id)) as [->|Hne]; [by right|]. left.
    destruct (decide (x ∈ allActors (m_QuadTreeRoot sg))) as [Hi|Hni]; [exact Hi|].
    rewrite H3 in Hx by assumption. unfold h0 in Hx.
    rewrite lookup_insert_ne in Hx by done. eapply Hin; eauto. }
  destruct (m_IsUpdatingActors (set_Heap sg h0)); apply E; reflexivity.
Qed.

Lemma RemoveActor_indexOk (sg : SceneGraph) (id : ActorId) :
  indexOk sg ->
  indexOk (snd (RemoveActor sg id)) /\
  (id ∉ allActors (m_QuadTreeRoot (RemoveActor sg id).2)) /\
  (forall x, x ∈ allActors (m_QuadTreeRoot (RemoveActor sg id).2) ->
             x ∈ allActors (m_QuadTreeRoot sg)) /\
  dom (m_Heap (RemoveActor sg id).2) = dom (m_Heap sg) /\
  m_Actors (RemoveActor sg id).2 = m_Actors sg /\
  m_NewActors (RemoveActor sg id).2 = m_NewActors sg /\
  m_IsUpdatingActors (RemoveActor sg id).2 = m_IsUpdatingActors sg.
Proof.
  intros Hok. unfold RemoveActor.
  destruct (m_Heap sg !! id) as [a|] eqn:Ha.
  2:{ simpl. split; [exact Hok|]. split; [|auto].
      intros Hid. destruct (indexOk_in_heap sg id Hok Hid) as (a' & Ha' & _). congruence. }
  destruct (GetQuadTreeCell a) as [p|] eqn:Hp.
  2:{ simpl. split; [exact Hok|]. split; [|auto].
      intros Hid. destruct (indexOk_in_heap sg id Hok Hid) as (a' & Ha' & [p Hc]).
      congruence. }
  destruct (indexOk_owner sg id a p Hok Ha Hp) as (c & Hc & Hin).
  unfold Cell_RemoveActor. rewrite Hc.
  apply holds_elem_of in Hin as Hh. rewrite Hh. simpl.
  destruct Hok as (Hnd & Hb & Hown).
  destruct (allActors_updateAt_erase id p (m_QuadTreeRoot sg)) as (I1 & I2 & I3).
  pose proof (updateAt_erase_gone p _ _ id Hc Hin Hnd) as Hgone.
  split; [|split; [exact Hgone|split; [exact I1|split; [apply setCell_dom|auto]]]].
  split; [by apply I3|]. split.
  - intros q k' x Hq Hx.
    destruct (cellAt_updateAt_erase id p _ q k' Hq) as (k & Hk & Hsub).
    assert (x <> id).
    { intros ->. apply Hgone. eapply cellAt_elem_of; eauto. }
    destruct (Hb q k x Hk (Hsub x Hx)) as (ax & Hax & Hcx).
    exists ax. split; [|exact Hcx].
    simpl. unfold setCell. rewrite lookup_alter_ne by done. exact Hax.
  - intros x ax Hx Hcx. simpl in Hx. unfold setCell in Hx.
    assert (Hne : x <> id).
    { intros ->. rewrite lookup_alter_eq, Ha in Hx.
      inversion Hx; subst ax. simpl in Hcx. destruct Hcx. discriminate. }
    rewrite lookup_alter_ne in Hx by done.
    apply I2; [|exact Hne]. eapply Hown; eauto.
Qed.

Lemma indexOk_ext (s s' : SceneGraph) :
  m_Heap s' = m_Heap s -> m_QuadTreeRoot s' = m_QuadTreeRoot s ->
  indexOk s -> indexOk s'.
Proof. unfold indexOk. intros -> ->. auto. Qed.

Lemma indexOk_alter (sg : SceneGraph) (f : Actor -> Actor) (id : ActorId) :
  (forall a, GetQuadTreeCell (f a) = GetQuadTreeCell a) ->
  indexOk sg -> indexOk (set_Heap sg (alter f id (m_Heap sg))).
Proof.
  intros Hf (Hnd & Hb & Hown). unfold indexOk. simpl.
  split; [exact Hnd|]. split.
  - intros q k x Hq Hx. destruct (Hb q k x Hq Hx) as (a & Ha & Hc).
    destruct (decide (x = id)) as [->|Hne].
    + exists (f a). rewrite lookup_alter_eq, Ha, Hf. auto.
    + exists a. rewrite lookup_alter_ne by done. auto.
  - intros x a Hx Hc. destruct (decide (x = id)) as [->|Hne].
    + rewrite lookup_alter_eq in Hx.
      destruct (m_Heap sg !! id) as [a0|] eqn:E; [|discriminate].
      simpl in Hx. inversion Hx; subst a. rewrite Hf in Hc. eauto.
    + rewrite lookup_alter_ne in Hx by done. eauto.
Qed.

Lemma fold_delete_lookup (l : list ActorId) : forall (h : Heap) (x : ActorId),
  (x ∉ l -> fold_left (fun h' id => delete id h') l h !! x = h !! x) /\
  (forall a, fold_left (fun h' id => delete id h') l h !! x = Some a -> h !! x = Some a).
Proof.
  induction l as [|y l IH]; intros h x; simpl; [auto|].
  destruct (IH (delete y h) x) as [I1 I2]. split.
  - intros Hx. rewrite I1 by set_solver. apply lookup_delete_ne. set_solver.
  - intros a Ha. apply I2 in Ha. apply lookup_delete_Some in Ha. tauto.
Qed.

(** Removing a list of actors from the graph and then destroying them. *)
Lemma removeAll_indexOk (l : list ActorId) : forall s : SceneGraph,
  indexOk s ->
  let s' := fold_left (fun s0 id => snd (RemoveActor s0 id)) l s in
  indexOk s' /\
  (forall x, x ∈ l -> x ∉ allActors (m_QuadTreeRoot s')) /\
  (forall x, x ∈ allActors (m_QuadTreeRoot s') -> x ∈ allActors (m_QuadTreeRoot s)) /\
  m_Actors s' = m_Actors s.
Proof.
  induction l as [|y l IH]; intros s Hok; simpl.
  - split; [exact Hok|]. split; [set_solver|auto].
  - destruct (RemoveActor_indexOk s y Hok) as (H1 & H2 & H3 & _ & H4 & _).
    destruct (IH _ H1) as (J1 & J2 & J3 & J4).
    split; [exact J1|]. split; [|split].
    + intros x Hx. apply elem_of_cons in Hx as [->|Hx]; [|by apply J2].
      intros Hy. apply H2. by apply J3.
    + intros x Hx. apply H3. by apply J3.
    + congruence.
Qed.

Lemma destroyed_indexOk (s : SceneGraph) (l keep : list ActorId) :
  indexOk s -> (forall x, x ∈ l -> x ∉ allActors (m_QuadTreeRoot s)) ->
  indexOk (set_Heap (set_Actors s keep)
                    (fold_left (fun h id => delete id h) l (m_Heap s))).
Proof.
  intros (Hnd & Hb & Hown) Hl. unfold indexOk. simpl.
  split; [exact Hnd|]. split.
  - intros q k x Hq Hx. destruct (Hb q k x Hq Hx) as (a & Ha & Hc).
    exists a. split; [|exact Hc].
    rewrite (proj1 (fold_delete_lookup l (m_Heap s) x)); [exact Ha|].
    intros Hxl. apply (Hl x Hxl). eapply cellAt_elem_of; eauto.
  - intros x a Hx Hc. apply (proj2 (fold_delete_lookup l (m_Heap s) x)) in Hx. eauto.
Qed.

Lemma DestroyPendingActors_indexOk (sg : SceneGraph) :
  indexOk sg -> indexOk (DestroyPendingActors sg).
Proof.
  intros Hok. unfold DestroyPendingActors.
  destruct (List.partition (pendingDestroy (m_Heap sg)) (m_Actors sg)) as [front back].
  destruct (removeAll_indexOk back (set_Actors sg (front ++ back)))
    as (H1 & H2 & _); [exact Hok|].
  apply (destroyed_indexOk _ back front H1 H2).
Qed.

Lemma ClearActors_indexOk (sg : SceneGraph) : indexOk sg -> indexOk (ClearActors sg).
Proof.
  intros Hok. unfold ClearActors.
  destruct (removeAll_indexOk (m_Actors sg) sg Hok) as (H1 & H2 & _ & H4).
  apply destroyed_indexOk; [exact H1|]. rewrite H4. exact H2.
Qed.

Lemma clampActor_cell (root : Rect) (a : Actor) :
  GetQuadTreeCell (clampActor root a) = GetQuadTreeCell a.
Proof.
  unfold clampActor. destruct (GetBoundingBoxes a) as [boxes|]; [|reflexivity].
  unfold clampBoxes. revert a. induction boxes as [|l boxes IH]; intros a; simpl;
    [reflexivity|]. rewrite IH. reflexivity.
Qed.

Lemma ClampActorsToBounds_indexOk (sg : SceneGraph) :
  indexOk sg -> indexOk (ClampActorsToBounds sg).
Proof.
  unfold ClampActorsToBounds, AppendActorList. simpl.
  generalize (cellActors (m_QuadTreeRoot sg)). intros l.
  generalize (GetBoundingBox (m_QuadTreeRoot sg)). intros root.
  revert sg. induction l as [|x l IH]; intros sg Hok; simpl.
  - eapply indexOk_ext; [| |exact Hok]; reflexivity.
  - pose proof (indexOk_alter sg (clampActor root) x (clampActor_cell root) Hok) as H.
    apply IH in H. eapply indexOk_ext; [| |exact H]; reflexivity.
Qed.

Section Invariant.

Variable factory : Actor -> string -> bool * Actor.

Lemma SpawnActor_indexOk (sg : SceneGraph) (file : string) (p : Point) (e : Q) :
  indexOk sg -> indexOk (snd (SpawnActor factory sg file p e)).
Proof.
  intros Hok. unfold SpawnActor.
  destruct (factory (Actor_new p e) file) as [[|] a]; simpl; [|exact Hok].
  pose proof (AddActor_indexOk sg (newActorId sg) a Hok) as H.
  destruct (AddActor sg (newActorId sg) a) as [ref sg']. simpl in *.
  apply H. apply not_elem_of_dom. unfold newActorId. apply is_fresh.
Qed.

Lemma SpawnActor_typed_indexOk (sg : SceneGraph) (res : string) (a0 : Actor) :
  indexOk sg -> indexOk (snd (SpawnActor_typed factory sg res a0)).
Proof.
  intros Hok. unfold SpawnActor_typed.
  destruct (factory a0 res) as [ok a].
  pose proof (AddActor_indexOk sg (newActorId sg) a Hok) as H.
  destruct (AddActor sg (newActorId sg) a) as [ref sg']. simpl in *.
  apply H. apply not_elem_of_dom. unfold newActorId. apply is_fresh.
Qed.

Lemma perform_indexOk (sg : SceneGraph) (r : Request) :
  indexOk sg -> indexOk (perform factory sg r).
Proof.
  intros Hok. destruct r as [file p e|target]; simpl.
  - by apply SpawnActor_indexOk.
  - by apply indexOk_alter.
Qed.

Variable logic : ActorId -> Q -> SceneGraph -> list Request.

Lemma fold_indexOk {A : Type} (f : SceneGraph -> A -> SceneGraph) (l : list A) :
  (forall s x, indexOk s -> indexOk (f s x)) ->
  forall s, indexOk s -> indexOk (fold_left f l s).
Proof.
  intros Hf. induction l as [|x l IH]; intros s Hs; simpl; auto.
Qed.

Theorem Update_indexOk (sg : SceneGraph) (deltaTime : Q) :
  indexOk sg -> indexOk (Update factory logic sg deltaTime).
Proof.
  intros Hok. unfold Update.
  eapply indexOk_ext; [reflexivity|reflexivity|].
  apply DestroyPendingActors_indexOk.
  eapply indexOk_ext; [reflexivity|reflexivity|].
  unfold UpdateActors. apply fold_indexOk.
  - intros s id Hs. unfold UpdateActor. apply fold_indexOk; [|exact Hs].
    intros s' r. apply perform_indexOk.
  - eapply indexOk_ext; [| |exact Hok]; reflexivity.
Qed.

End Invariant.

(** In a well-formed index an actor that has an owning cell is removed
    with success and leaves the enumeration. *)
Corollary RemoveActor_indexed (sg : SceneGraph) (id : ActorId) (a : Actor) :
  indexOk sg -> m_Heap sg !! id = Some a -> is_Some (GetQuadTreeCell a) ->
  (RemoveActor sg id).1 = true /\ ~ indexed (RemoveActor sg id).2 id.
Proof.
  intros Hok Ha [p Hp].
  destruct (indexOk_owner sg id a p Hok Ha Hp) as (c & Hc & Hin).
  destruct (RemoveActor_indexOk sg id Hok) as (_ & Hgone & _).
  rewrite (RemoveActor_held sg id a p c Ha Hp Hc Hin) in *.
  split; [reflexivity|exact Hgone].
Qed.

(** The sample scene with two actors is well formed. *)
Lemma twoActorScene_indexOk : indexOk twoActorScene.
Proof.
  unfold twoActorScene. apply SpawnActor_indexOk. apply SpawnActor_indexOk.
  apply SceneGraph_new_indexOk.
Qed.

(** ** The transforms, one after the other *)

Lemma inject_Z_zero (z : Z) : inject_Z z == 0 <-> z = 0%Z.
Proof.
  unfold Qeq. simpl. split; intros H; lia.
Qed.

Lemma fdiv_cases (a b : Q) :
  (b == 0 /\ fdiv a b = DivByZero) \/ (~ b == 0 /\ fdiv a b = Ok (a / b)).
Proof.
  unfold fdiv. destruct (Qeq_bool b 0) eqn:E.
  - left. split; [by apply Qeq_bool_iff|reflexivity].
  - right. split; [|reflexivity]. intros H. apply Qeq_bool_iff in H. congruence.
Qed.

(** [ToIsometricCoord] divides by the two tile dimensions and by nothing
    else. *)
Lemma ToIsometricCoord_cases (sg : SceneGraph) (c : PointI) :
  ((m_TileWidth sg = 0%Z \/ m_TileHeight sg = 0%Z) /\
   ToIsometricCoord sg c = DivByZero) \/
  (m_TileWidth sg <> 0%Z /\ m_TileHeight sg <> 0%Z /\
   exists q, ToIsometricCoord sg c = Ok q).
Proof.
  unfold ToIsometricCoord.
  destruct (m_RenderPerspective sg);
    destruct (fdiv_cases (inject_Z (Xi c)) (inject_Z (m_TileWidth sg))) as [[Hw ->]|[Hw ->]];
    destruct (fdiv_cases (inject_Z (Yi c)) (inject_Z (m_TileHeight sg))) as [[Hh ->]|[Hh ->]];
    rewrite inject_Z_zero in Hw, Hh; simpl; eauto 6.
Qed.

(** X1: [ToIsometricCoord] fails with a division by zero exactly when the tile
    width or the tile height is zero, under either perspective and for
    every point. *)
Theorem ToIsometricCoord_fails_iff (sg : SceneGraph) (c : PointI) :
  ToIsometricCoord sg c = DivByZero <->
  m_TileWidth sg = 0%Z \/ m_TileHeight sg = 0%Z.
Proof.
  destruct (ToIsometricCoord_cases sg c) as [[H ->]|(Hw & Hh & q & ->)].
  - tauto.
  - split; [discriminate|tauto].
Qed.

(** [ToWorldPosition] fails with [ToIsometricCoord] and not otherwise:
    the division by the zoom is guarded. *)
Lemma ToWorldPosition_cases (sg : SceneGraph) (s : PointI) :
  ((m_TileWidth sg = 0%Z \/ m_TileHeight sg = 0%Z) /\
   ToWorldPosition sg s = DivByZero) \/
  (m_TileWidth sg <> 0%Z /\ m_TileHeight sg <> 0%Z /\
   exists w, ToWorldPosition sg s = Ok w).
Proof.
  unfold ToWorldPosition.
  destruct (ToIsometricCoord_cases sg
              (PointI_sub s (GetScreenCentrePosition (m_RendererRef sg))))
    as [[H ->]|(Hw & Hh & q & ->)]; simpl; [tauto|].
  right. split; [exact Hw|]. split; [exact Hh|].
  destruct (Qeq_bool (m_Zoom sg) 0) eqn:E; simpl; [eauto|].
  unfold Point_div, fdiv. rewrite E. simpl. eauto.
Qed.

(** X2: [ToWorldPosition] fails exactly when the tile width or the tile height
    is zero.  A zoom of zero does not make it fail: the division by the
    zoom is guarded. *)
Theorem ToWorldPosition_fails_iff (sg : SceneGraph) (s : PointI) :
  ToWorldPosition sg s = DivByZero <->
  m_TileWidth sg = 0%Z \/ m_TileHeight sg = 0%Z.
Proof.
  destruct (ToWorldPosition_cases sg s) as [[H ->]|(Hw & Hh & w & ->)].
  - tauto.
  - split; [discriminate|tauto].
Qed.

(** X3: [PickActor] fails exactly when the tile width or the tile height is
    zero, whatever the cell query does. *)
Theorem PickActor_fails_iff
        (cellFirstHit : QuadTreeCell -> Heap -> Point -> Point -> list ActorId -> option ActorId)
        (sg : SceneGraph) (s : PointI) :
  PickActor cellFirstHit sg s = DivByZero <->
  m_TileWidth sg = 0%Z \/ m_TileHeight sg = 0%Z.
Proof.
  unfold PickActor.
  destruct (ToWorldPosition_cases sg s) as [[H ->]|(Hw & Hh & w & ->)]; simpl.
  - tauto.
  - split; [discriminate|tauto].
Qed.


Lemma Qfloor_integral (q : Q) (z : Z) : q == inject_Z z -> Qfloor q = z.
Proof. intros H. rewrite (Qfloor_comp _ _ H). apply Qfloor_Z. Qed.


(** The value of [ToIsometricCoord] for tiles of non-zero size. *)
Lemma ToIsometricCoord_value (sg : SceneGraph) (c : PointI) :
  m_TileWidth sg <> 0%Z -> m_TileHeight sg <> 0%Z ->
  ToIsometricCoord sg c =
  Ok (match m_RenderPerspective sg with
      | OBLIQUE =>
          mkPoint (inject_Z (Xi c) / inject_Z (m_TileWidth sg))
                  (inject_Z (Yi c) / inject_Z (m_TileHeight sg))
      | ISOMETRIC =>
          mkPoint (inject_Z (Yi c) / inject_Z (m_TileHeight sg)
                   + inject_Z (Xi c) / inject_Z (m_TileWidth sg))
                  (inject_Z (Yi c) / inject_Z (m_TileHeight sg)
                   - inject_Z (Xi c) / inject_Z (m_TileWidth sg))
      end).
Proof.
  intros Hw Hh. apply inject_Z_nonzero in Hw, Hh.
  unfold ToIsometricCoord.
  destruct (m_RenderPerspective sg); rewrite !fdiv_nonzero by assumption; reflexivity.
Qed.





#[local] Arguments Qfloor : simpl never.





(** [ToScreenPosition] once the camera has been set. *)
Lemma ToScreenPosition_SetCameraPosition (sg : SceneGraph) (cam p : Point) (e e' : Q) :
  ToScreenPosition (SetCameraPosition sg cam e) p e' =
  Point_add
    (Point_mul
       (Point_sub (ToCartesianCoord sg p)
                  (mkPoint (inject_Z (Qfloor (X (ToCartesianCoord sg cam))))
                           (inject_Z (Qfloor (Y (ToCartesianCoord sg cam))))))
       (m_Zoom sg))
    (PointI_toFloat (GetScreenCentrePosition (m_RendererRef sg))).
Proof.
  unfold ToScreenPosition, SetCameraPosition, ToCartesianCoord. simpl.
  destruct (m_RenderPerspective sg); reflexivity.
Qed.



(** X7: Right after [SetCameraPosition] on a camera whose cartesian projection
    is integral, the world position of the camera is drawn at the screen
    centre, for every zoom. *)
Theorem camera_projects_to_centre (sg : SceneGraph) (cam : Point) (e e' : Q) (c : PointI) :
  Point_eq (ToCartesianCoord sg cam) (PointI_toFloat c) ->
  Point_eq (ToScreenPosition (SetCameraPosition sg cam e) cam e')
           (PointI_toFloat (GetScreenCentrePosition (m_RendererRef sg))).
Proof.
  intros [Hx Hy]. rewrite ToScreenPosition_SetCameraPosition.
  simpl in Hx, Hy.
  rewrite (Qfloor_integral _ _ Hx), (Qfloor_integral _ _ Hy).
  unfold Point_add, Point_mul, Point_sub, PointI_toFloat. split; simpl.
  - rewrite Hx. ring.
  - rewrite Hy. ring.
Qed.

Lemma camera_projects_to_centre_witness :
  Point_eq (ToScreenPosition
              (SetCameraPosition (SetZoom (demoScene ISOMETRIC 32 16) 2) (mkPoint 5 5) 0)
              (mkPoint 5 5) 0)
           (PointI_toFloat (GetScreenCentrePosition
                              (m_RendererRef (SetZoom (demoScene ISOMETRIC 32 16) 2)))).
Proof.
  apply (camera_projects_to_centre (SetZoom (demoScene ISOMETRIC 32 16) 2) (mkPoint 5 5)
           0 0 (mkPointI 0 80)).
  split; reflexivity.
Defined.


(** X9: The constructor leaves the cached camera position at the origin, draws
    the world origin at the screen centre, and starts with a zoom of one,
    no actors, an empty deferred buffer, no update pass and the one tile
    map it was given. *)
Theorem SceneGraph_new_shows_origin_at_centre (renderer : Renderer) (tileMap : TileMap)
        (maxObjectsInCell : nat) (tileWidth tileHeight : Z) (p : RenderPerspective)
        (elevation0 e : Q) :
  let sg := SceneGraph_new renderer tileMap maxObjectsInCell tileWidth tileHeight p
                           elevation0 in
  Point_eq (m_sCameraPosition sg) (mkPoint 0 0) /\
  Point_eq (ToScreenPosition sg (mkPoint 0 0) e)
           (PointI_toFloat (GetScreenCentrePosition renderer)) /\
  m_Zoom sg == 1 /\ m_Actors sg = [] /\ m_NewActors sg = [] /\
  m_IsUpdatingActors sg = false /\ m_TileMaps sg = [tileMap].
Proof.
  intros sg. subst sg. unfold SceneGraph_new.
  split; [|split; [|repeat split]].
  - unfold SetCameraPosition, ToCartesianCoord. simpl.
    destruct p; split; simpl;
      match goal with
      | |- inject_Z (Qfloor ?q) == 0 =>
          rewrite (Qfloor_integral q 0%Z) by (simpl; ring); reflexivity
      end.
  - rewrite ToScreenPosition_SetCameraPosition. simpl.
    unfold ToCartesianCoord. simpl.
    destruct p; unfold Point_add, Point_mul, Point_sub, PointI_toFloat; split; simpl;
      match goal with
      | |- context [Qfloor ?q] =>
          rewrite (Qfloor_integral q 0%Z) by (simpl; ring); simpl; ring
      end.
Qed.


(** X11: With tile dimensions that are not zero, [ToWorldPosition] maps the
    screen centre to the world position of the camera, for every zoom
    (zero included) and under either perspective. *)
Theorem ToWorldPosition_centre (sg : SceneGraph) :
  m_TileWidth sg <> 0%Z -> m_TileHeight sg <> 0%Z ->
  exists w, ToWorldPosition sg (GetScreenCentrePosition (m_RendererRef sg)) = Ok w /\
            Point_eq w (m_wCameraPosition sg).
Proof.
  intros Hw Hh. unfold ToWorldPosition.
  rewrite ToIsometricCoord_value by assumption.
  pose proof (inject_Z_nonzero _ Hw). pose proof (inject_Z_nonzero _ Hh).
  unfold PointI_sub. cbn [rbind Xi Yi]. rewrite !Z.sub_diag.
  destruct (Qeq_bool (m_Zoom sg) 0) eqn:E; cbn [negb].
  - cbn [rbind]. eexists. split; [reflexivity|].
    destruct (m_RenderPerspective sg); split; simpl; field; auto.
  - assert (Hz : ~ m_Zoom sg == 0).
    { intros Hz. apply Qeq_bool_iff in Hz. congruence. }
    unfold Point_div. rewrite !fdiv_nonzero by assumption. cbn [rbind].
    eexists. split; [reflexivity|].
    destruct (m_RenderPerspective sg); split; simpl; field; auto.
Qed.

Lemma ToWorldPosition_centre_witness :
  exists w, ToWorldPosition
              (SetCameraPosition (SetZoom (demoScene ISOMETRIC 64 32) 0) (mkPoint 3 1) 0)
              (GetScreenCentrePosition
                 (m_RendererRef
                    (SetCameraPosition (SetZoom (demoScene ISOMETRIC 64 32) 0)
                                       (mkPoint 3 1) 0))) = Ok w /\
            Point_eq w (m_wCameraPosition
                          (SetCameraPosition (SetZoom (demoScene ISOMETRIC 64 32) 0)
                                             (mkPoint 3 1) 0)).
Proof.
  apply (ToWorldPosition_centre
           (SetCameraPosition (SetZoom (demoScene ISOMETRIC 64 32) 0) (mkPoint 3 1) 0));
    discriminate.
Defined.

(** ** Spawning, the update pass and the flush *)

Lemma sameData_refl (a : Actor) : sameData a a.
Proof. reflexivity. Qed.

Lemma sameData_trans (a b c : Actor) : sameData a b -> sameData b c -> sameData a c.
Proof. unfold sameData. congruence. Qed.

Lemma sameData_SetQuadTreeCell (a : Actor) (c : option CellPath) :
  sameData a (SetQuadTreeCell a c).
Proof. reflexivity. Qed.

Lemma sameActors_refl (h : Heap) : sameActors h h.
Proof. intros id. destruct (h !! id); [apply sameData_refl|exact I]. Qed.

Lemma sameActors_trans (h1 h2 h3 : Heap) :
  sameActors h1 h2 -> sameActors h2 h3 -> sameActors h1 h3.
Proof.
  intros H1 H2 id. specialize (H1 id). specialize (H2 id).
  destruct (h1 !! id), (h2 !! id), (h3 !! id); try tauto.
  eapply sameData_trans; eauto.
Qed.

Lemma sameActors_setCell (h : Heap) (id : ActorId) (c : option CellPath) :
  sameActors h (setCell h id c).
Proof.
  intros x. unfold setCell. destruct (decide (x = id)) as [->|Hne].
  - rewrite lookup_alter_eq. destruct (h !! id); simpl; [apply sameData_SetQuadTreeCell|exact I].
  - rewrite lookup_alter_ne by done. destruct (h !! x); [apply sameData_refl|exact I].
Qed.

(** [InsertActor] changes nothing of the actors but back-references. *)
Lemma Cell_InsertActor_sameActors (depth : nat) :
  forall (path : CellPath) (c : QuadTreeCell) (id : ActorId) (h : Heap),
    sameActors h (Cell_InsertActor depth path c id h).2.
Proof.
  induction depth as [|depth IH]; intros path c id h.
  - simpl. apply sameActors_setCell.
  - destruct c as [r m hd|r m hd c0 c1 c2 c3]; simpl.
    + destruct (m <? length (hd ++ [id]))%nat; simpl; [|apply sameActors_setCell].
      set (f := fun (st : QuadTreeCell * Heap) (a : ActorId) =>
                  Cell_InsertActor depth path st.1 a st.2).
      assert (Hfold : forall (l : list ActorId) (st : QuadTreeCell * Heap),
                 sameActors st.2 (fold_left f l st).2).
      { induction l as [|a l IHl]; intros st; simpl; [apply sameActors_refl|].
        eapply sameActors_trans; [|apply IHl]. unfold f. simpl. apply IH. }
      eapply sameActors_trans; [|apply Hfold]. simpl. apply sameActors_setCell.
    + destruct (fittingQuadrant h id r) as [q|]; simpl; [|apply sameActors_setCell].
      destruct q; simpl;
        match goal with
        | |- context [Cell_InsertActor depth ?p ?k id h] =>
            pose proof (IH p k id h) as Hk;
            destruct (Cell_InsertActor depth p k id h) as [k' h']
        end; simpl in *; exact Hk.
Qed.

(** What [RemoveActor] leaves alone. *)
Lemma RemoveActor_frame (sg : SceneGraph) (id : ActorId) :
  m_Actors (RemoveActor sg id).2 = m_Actors sg /\
  m_NewActors (RemoveActor sg id).2 = m_NewActors sg /\
  m_IsUpdatingActors (RemoveActor sg id).2 = m_IsUpdatingActors sg /\
  sameActors (m_Heap sg) (m_Heap (RemoveActor sg id).2) /\
  (forall x, x <> id -> m_Heap (RemoveActor sg id).2 !! x = m_Heap sg !! x).
Proof.
  unfold RemoveActor.
  destruct (m_Heap sg !! id) as [a|]; [|simpl; auto using sameActors_refl].
  destruct (GetQuadTreeCell a) as [p|]; [|simpl; auto using sameActors_refl].
  unfold Cell_RemoveActor.
  destruct (cellAt (m_QuadTreeRoot sg) p) as [c|]; [|simpl; auto using sameActors_refl].
  destruct (holds id (cellActors c)); simpl; [|auto using sameActors_refl].
  repeat split; [apply sameActors_setCell|].
  intros x Hx. unfold setCell. by rewrite lookup_alter_ne.
Qed.

Lemma removeAll_frame (l : list ActorId) : forall sg : SceneGraph,
  let sg' := fold_left (fun s id => (RemoveActor s id).2) l sg in
  m_Actors sg' = m_Actors sg /\
  m_NewActors sg' = m_NewActors sg /\
  m_IsUpdatingActors sg' = m_IsUpdatingActors sg /\
  sameActors (m_Heap sg) (m_Heap sg') /\
  (forall x, x ∉ l -> m_Heap sg' !! x = m_Heap sg !! x).
Proof.
  induction l as [|y l IH]; intros sg; simpl.
  - repeat split; auto using sameActors_refl.
  - destruct (RemoveActor_frame sg y) as (H1 & H2 & H3 & H4 & H5).
    destruct (IH (RemoveActor sg y).2) as (J1 & J2 & J3 & J4 & J5).
    repeat split; try congruence.
    + eapply sameActors_trans; eauto.
    + intros x Hx. rewrite J5 by set_solver. apply H5. set_solver.
Qed.

Lemma fold_delete_in (l : list ActorId) : forall (h : Heap) (x : ActorId),
  x ∈ l -> fold_left (fun h' id => delete id h') l h !! x = None.
Proof.
  induction l as [|y l IH]; intros h x Hx; simpl; [set_solver|].
  destruct (decide (x ∈ l)) as [Hin|Hnin]; [by apply IH|].
  rewrite (proj1 (fold_delete_lookup l (delete y h) x) Hnin).
  assert (x = y) by set_solver. subst. apply lookup_delete_eq.
Qed.

(** X12: [ClearActors] empties the registry and destroys exactly the actors the
    registry owned: every other object of the heap is kept as it was, and
    the deferred buffer and the update flag are untouched. *)
Theorem ClearActors_releases_registry (sg : SceneGraph) :
  m_Actors (ClearActors sg) = [] /\
  (forall id, id ∈ m_Actors sg -> m_Heap (ClearActors sg) !! id = None) /\
  (forall id, id ∉ m_Actors sg -> m_Heap (ClearActors sg) !! id = m_Heap sg !! id) /\
  m_NewActors (ClearActors sg) = m_NewActors sg /\
  m_IsUpdatingActors (ClearActors sg) = m_IsUpdatingActors sg.
Proof.
  unfold ClearActors.
  destruct (removeAll_frame (m_Actors sg) sg) as (H1 & H2 & H3 & H4 & H5).
  simpl. rewrite H1. repeat split; auto.
  - intros id Hid. by apply fold_delete_in.
  - intros id Hid. rewrite (proj1 (fold_delete_lookup _ _ id) Hid). by apply H5.
Qed.

(** What [AddActor] does to the registry, the buffer and the heap. *)
Lemma AddActor_effect (sg : SceneGraph) (id : ActorId) (a : Actor) :
  (AddActor sg id a).1 = id /\
  m_IsUpdatingActors (AddActor sg id a).2 = m_IsUpdatingActors sg /\
  m_Actors (AddActor sg id a).2
    = (if m_IsUpdatingActors sg then m_Actors sg else m_Actors sg ++ [id]) /\
  m_NewActors (AddActor sg id a).2
    = (if m_IsUpdatingActors sg then m_NewActors sg ++ [id] else m_NewActors sg) /\
  sameActors (<[id := a]> (m_Heap sg)) (m_Heap (AddActor sg id a).2).
Proof.
  unfold AddActor. generalize InsertDepth. intros depth.
  destruct sg as [rr hp ac tm tw th hw hh zm wc we sc rt ps na up].
  simpl. destruct up; simpl;
    match goal with
    | |- context [Cell_InsertActor ?d ?p ?c ?i ?h] =>
        pose proof (Cell_InsertActor_sameActors d p c i h) as Hs;
        destruct (Cell_InsertActor d p c i h) as [root' h']
    end; simpl in *; repeat split; exact Hs.
Qed.

Section SpawnAndUpdate.

Variable factory : Actor -> string -> bool * Actor.

(** X13: When the factory fails, [SpawnActor] returns the null handle and the
    scene is unchanged. *)
Theorem SpawnActor_failure_leaves_scene (sg : SceneGraph) (file : string) (p : Point)
        (e : Q) :
  (factory (Actor_new p e) file).1 = false ->
  SpawnActor factory sg file p e = (None, sg).
Proof.
  intros H. unfold SpawnActor.
  destruct (factory (Actor_new p e) file) as [ok a]. simpl in H. subst ok. reflexivity.
Qed.

(** X14: When the factory succeeds, [SpawnActor] returns the handle of a new
    object that holds the actor as the factory left it, enumerated by the
    index; the actors that existed keep their data; the handle joins the
    deferred buffer during an update pass and the registry otherwise. *)
Theorem SpawnActor_success (sg : SceneGraph) (file : string) (p : Point) (e : Q)
        (a : Actor) :
  factory (Actor_new p e) file = (true, a) ->
  (SpawnActor factory sg file p e).1 = Some (newActorId sg) /\
  m_Heap sg !! newActorId sg = None /\
  (exists a', m_Heap (SpawnActor factory sg file p e).2 !! newActorId sg = Some a' /\
              sameData a a') /\
  (forall x b, m_Heap sg !! x = Some b ->
               exists b', m_Heap (SpawnActor factory sg file p e).2 !! x = Some b' /\
                          sameData b b') /\
  indexed (SpawnActor factory sg file p e).2 (newActorId sg) /\
  m_Actors (SpawnActor factory sg file p e).2
    = (if m_IsUpdatingActors sg then m_Actors sg else m_Actors sg ++ [newActorId sg]) /\
  m_NewActors (SpawnActor factory sg file p e).2
    = (if m_IsUpdatingActors sg then m_NewActors sg ++ [newActorId sg]
       else m_NewActors sg) /\
  m_IsUpdatingActors (SpawnActor factory sg file p e).2 = m_IsUpdatingActors sg.
Proof.
  intros Hf.
  assert (Hfresh : m_Heap sg !! newActorId sg = None).
  { unfold newActorId. apply (not_elem_of_dom (D := gset ActorId)). apply is_fresh. }
  unfold SpawnActor. rewrite Hf. cbn [negb].
  generalize dependent (newActorId sg). intros id Hfresh.
  pose proof (AddActor_effect sg id a) as (H1 & H2 & H3 & H4 & H5).
  pose proof (AddActor_registry sg id a) as (_ & _ & _ & _ & _ & H6).
  destruct (AddActor sg id a) as [ref sg']. simpl in *. subst ref.
  split; [reflexivity|]. split; [exact Hfresh|]. split; [|split; [|auto]].
  - specialize (H5 id). rewrite lookup_insert_eq in H5.
    destruct (m_Heap sg' !! id) as [a'|]; [eauto|contradiction].
  - intros x b Hx. specialize (H5 x).
    rewrite lookup_insert_ne in H5 by (intros ->; congruence). rewrite Hx in H5.
    destruct (m_Heap sg' !! x) as [b'|]; [eauto|contradiction].
Qed.

(** One request never shortens the deferred buffer. *)
Lemma perform_buffer_prefix (sg : SceneGraph) (r : Request) :
  m_NewActors sg `prefix_of` m_NewActors (perform factory sg r).
Proof.
  destruct r as [file p e|target]; simpl; [|reflexivity].
  unfold SpawnActor. destruct (factory (Actor_new p e) file) as [[|] a]; simpl;
    [|reflexivity].
  pose proof (AddActor_effect sg (newActorId sg) a) as (_ & _ & _ & H4 & _).
  destruct (AddActor sg (newActorId sg) a) as [ref sg']. simpl in *. rewrite H4.
  destruct (m_IsUpdatingActors sg); [apply prefix_app_r|]; reflexivity.
Qed.

Variable logic : ActorId -> Q -> SceneGraph -> list Request.

Lemma fold_buffer_prefix {A : Type} (f : SceneGraph -> A -> SceneGraph) (l : list A) :
  (forall s x, m_NewActors s `prefix_of` m_NewActors (f s x)) ->
  forall s, m_NewActors s `prefix_of` m_NewActors (fold_left f l s).
Proof.
  intros Hf. induction l as [|x l IH]; intros s; simpl; [reflexivity|].
  etrans; [apply (Hf s x)|apply IH].
Qed.

(** X15: The update loop of [Update] never touches the registry it iterates
    over: the registry is the same after the loop, the pass is still
    flagged, the deferred buffer has only grown at its end, and no object
    was freed. *)
Theorem UpdateActors_keeps_registry (sg : SceneGraph) (deltaTime : Q) :
  let pass := UpdateActors factory logic deltaTime (set_IsUpdatingActors sg true) in
  m_Actors pass = m_Actors sg /\
  m_IsUpdatingActors pass = true /\
  m_NewActors sg `prefix_of` m_NewActors pass /\
  dom (m_Heap sg) ⊆ dom (m_Heap pass).
Proof.
  intros pass.
  destruct (UpdateActors_passStep factory logic deltaTime (set_IsUpdatingActors sg true)
              eq_refl) as (Hf & Ha & Hd & _).
  split; [exact Ha|]. split; [exact Hf|]. split; [|exact Hd].
  unfold pass, UpdateActors.
  apply (fold_buffer_prefix (UpdateActor factory logic deltaTime)
                            _ ltac:(intros s x; unfold UpdateActor;
                                    apply fold_buffer_prefix; intros; apply perform_buffer_prefix)
                            (set_IsUpdatingActors sg true)).
Qed.

(** X16: [Update] ends with an empty deferred buffer and the update flag
    lowered; every actor of the registry was in the registry before or in
    the deferred buffer at the end of the loop; and an actor that left the
    registry was destroyed. *)
Theorem Update_flushes_buffer (sg : SceneGraph) (deltaTime : Q) :
  let pass := UpdateActors factory logic deltaTime (set_IsUpdatingActors sg true) in
  let sg' := Update factory logic sg deltaTime in
  m_NewActors sg' = [] /\
  m_IsUpdatingActors sg' = false /\
  (forall id, id ∈ m_Actors sg' -> id ∈ m_Actors sg \/ id ∈ m_NewActors pass) /\
  (forall id, id ∈ m_Actors sg -> id ∉ m_Actors sg' -> m_Heap sg' !! id = None).
Proof.
  intros pass sg'. subst sg'. unfold Update. fold pass.
  destruct (UpdateActors_passStep factory logic deltaTime (set_IsUpdatingActors sg true)
              eq_refl) as (_ & Ha & _ & _). fold pass in Ha. simpl in Ha.
  set (s4 := set_NewActors (set_Actors pass (m_Actors pass ++ m_NewActors pass)) []).
  assert (Hreg := DestroyPendingActors_registry s4).
  unfold DestroyPendingActors in *.
  destruct (List.partition (pendingDestroy (m_Heap s4)) (m_Actors s4)) as [front back] eqn:Ep.
  destruct (removeAll_frame back (set_Actors s4 (front ++ back))) as (H1 & H2 & H3 & _ & _).
  simpl in *. split; [exact H2|]. split; [reflexivity|]. split.
  - intros id Hid. rewrite Hreg in Hid. apply list_elem_of_In in Hid.
    apply filter_In in Hid as [Hid _]. apply list_elem_of_In in Hid.
    rewrite Ha in Hid. by apply elem_of_app in Hid.
  - intros id Hid Hnot.
    apply fold_delete_in.
    assert (Hin : id ∈ front ++ back).
    { rewrite <- Ha in Hid.
      assert (Hx : In id (m_Actors pass ++ m_NewActors pass))
        by (apply in_or_app; left; by apply list_elem_of_In).
      pose proof (elements_in_partition _ _ Ep id) as [Hp _].
      apply list_elem_of_In. apply in_or_app. by apply Hp. }
    apply elem_of_app in Hin as [Hin|Hin]; [contradiction|exact Hin].
Qed.

End SpawnAndUpdate.

Lemma SpawnActor_failure_leaves_scene_witness :
  SpawnActor failingFactory twoActorScene "ghost" (mkPoint 3 3) 0 = (None, twoActorScene).
Proof.
  apply (SpawnActor_failure_leaves_scene failingFactory twoActorScene "ghost" (mkPoint 3 3) 0).
  reflexivity.
Defined.

Lemma SpawnActor_success_witness :
  let sg := demoScene OBLIQUE 32 32 in
  let a := mkActor (mkPoint 1 1) 0 0 (Some [mkRect 0 0 1 1]) false None "a" in
  let r := SpawnActor unitBoxFactory sg "a" (mkPoint 1 1) 0 in
  r.1 = Some (newActorId sg) /\
  m_Heap sg !! newActorId sg = None /\
  (exists a', m_Heap r.2 !! newActorId sg = Some a' /\ sameData a a') /\
  (forall x b, m_Heap sg !! x = Some b ->
               exists b', m_Heap r.2 !! x = Some b' /\ sameData b b') /\
  indexed r.2 (newActorId sg) /\
  m_Actors r.2
    = (if m_IsUpdatingActors sg then m_Actors sg else m_Actors sg ++ [newActorId sg]) /\
  m_NewActors r.2
    = (if m_IsUpdatingActors sg then m_NewActors sg ++ [newActorId sg]
       else m_NewActors sg) /\
  m_IsUpdatingActors r.2 = m_IsUpdatingActors sg.
Proof.
  apply (SpawnActor_success unitBoxFactory (demoScene OBLIQUE 32 32) "a" (mkPoint 1 1) 0
           (mkActor (mkPoint 1 1) 0 0 (Some [mkRect 0 0 1 1]) false None "a")).
  reflexivity.
Defined.

(** ** What the clamp and the collision pass leave alone *)









(** The clamp changes nothing of an actor but its position. *)
Lemma clampActor_moves (root : Rect) (a : Actor) :
  clampActor root a = SetPosition a (GetPosition (clampActor root a)).
Proof.
  unfold clampActor. destruct (GetBoundingBoxes a) as [boxes|]; [|by destruct a].
  unfold clampBoxes.
  assert (H : forall b, b = SetPosition a (GetPosition b) ->
              fold_left (fun a' l => SetPosition a' (clampBox root (GetPosition a') l)) boxes b
              = SetPosition a (GetPosition
                  (fold_left (fun a' l => SetPosition a' (clampBox root (GetPosition a') l))
                             boxes b))).
  { induction boxes as [|l boxes IH]; intros b Hb; simpl; [exact Hb|].
    apply IH. rewrite Hb at 1. reflexivity. }
  apply H. by destruct a.
Qed.

Lemma SetPosition_sameBody (a a' : Actor) (p : Point) :
  a' = SetPosition a p -> sameBody a a'.
Proof. intros ->. repeat split. Qed.




Lemma movedOnly_refl (h : Heap) : movedOnly h h.
Proof. intros id. destruct (h !! id) as [a|]; [by destruct a|exact I]. Qed.

Lemma movedOnly_trans (h1 h2 h3 : Heap) :
  movedOnly h1 h2 -> movedOnly h2 h3 -> movedOnly h1 h3.
Proof.
  intros H1 H2 id. specialize (H1 id). specialize (H2 id).
  destruct (h1 !! id) as [a|], (h2 !! id) as [b|], (h3 !! id) as [c|]; try tauto.
  rewrite H2, H1. reflexivity.
Qed.

Lemma movedOnly_alter (h : Heap) (f : Actor -> Actor) (id : ActorId) :
  (forall a, f a = SetPosition a (GetPosition (f a))) ->
  movedOnly h (alter f id h).
Proof.
  intros Hf x. destruct (decide (x = id)) as [->|Hne].
  - rewrite lookup_alter_eq. destruct (h !! id) as [a|]; simpl; [apply Hf|exact I].
  - rewrite lookup_alter_ne by done. destruct (h !! x) as [a|]; [by destruct a|exact I].
Qed.

Lemma clampAll_movedOnly (root : Rect) (ids : list ActorId) : forall h : Heap,
  movedOnly h (clampAll root ids h).
Proof.
  induction ids as [|x ids IH]; intros h; simpl; [apply movedOnly_refl|].
  eapply movedOnly_trans; [|apply IH].
  apply movedOnly_alter. apply clampActor_moves.
Qed.

Lemma resolveBoxes_moves (a b : Actor) (st : Actor * Actor) (la lb : Rect) :
  st.1 = SetPosition a (GetPosition st.1) -> st.2 = SetPosition b (GetPosition st.2) ->
  (resolveBoxes st la lb).1 = SetPosition a (GetPosition (resolveBoxes st la lb).1) /\
  (resolveBoxes st la lb).2 = SetPosition b (GetPosition (resolveBoxes st la lb).2).
Proof.
  destruct st as [x y]. simpl. intros Hx Hy. unfold resolveBoxes.
  destruct (Rect_intersects _ _); simpl; [|auto].
  split; [rewrite Hx at 1|rewrite Hy at 1]; reflexivity.
Qed.

Lemma resolveActors_moves (a b : Actor) :
  (resolveActors a b).1 = SetPosition a (GetPosition (resolveActors a b).1) /\
  (resolveActors a b).2 = SetPosition b (GetPosition (resolveActors a b).2).
Proof.
  unfold resolveActors.
  destruct (GetBoundingBoxes a) as [boxesA|]; [|split; [by destruct a|by destruct b]].
  destruct (GetBoundingBoxes b) as [boxesB|]; [|split; [by destruct a|by destruct b]].
  assert (Hin : forall (la : Rect) (l : list Rect) (st : Actor * Actor),
             st.1 = SetPosition a (GetPosition st.1) ->
             st.2 = SetPosition b (GetPosition st.2) ->
             let st' := fold_left (fun st' lb => resolveBoxes st' la lb) l st in
             st'.1 = SetPosition a (GetPosition st'.1) /\
             st'.2 = SetPosition b (GetPosition st'.2)).
  { intros la. induction l as [|lb l IH]; intros st H1 H2; simpl; [auto|].
    destruct (resolveBoxes_moves a b st la lb H1 H2). by apply IH. }
  assert (Hout : forall (l : list Rect) (st : Actor * Actor),
             st.1 = SetPosition a (GetPosition st.1) ->
             st.2 = SetPosition b (GetPosition st.2) ->
             let st' := fold_left
                          (fun st0 la =>
                             fold_left (fun st' lb => resolveBoxes st' la lb) boxesB st0)
                          l st in
             st'.1 = SetPosition a (GetPosition st'.1) /\
             st'.2 = SetPosition b (GetPosition st'.2)).
  { induction l as [|la l IH]; intros st H1 H2; simpl; [auto|].
    destruct (Hin la boxesB st H1 H2). by apply IH. }
  apply Hout; simpl; [by destruct a|by destruct b].
Qed.

Lemma resolvePair_movedOnly (h : Heap) (i j : ActorId) : movedOnly h (resolvePair h i j).
Proof.
  unfold resolvePair. destruct (Nat.eqb i j) eqn:E; [apply movedOnly_refl|].
  apply Nat.eqb_neq in E.
  destruct (h !! i) as [a|] eqn:Hi; [|apply movedOnly_refl].
  destruct (h !! j) as [b|] eqn:Hj; [|apply movedOnly_refl].
  destruct (resolveActors_moves a b) as [H1 H2].
  destruct (resolveActors a b) as [a' b']. simpl in *.
  intros x. destruct (decide (x = j)) as [->|Hnj].
  - rewrite lookup_insert_eq, Hj. exact H2.
  - rewrite lookup_insert_ne by done. destruct (decide (x = i)) as [->|Hni].
    + rewrite lookup_insert_eq, Hi. exact H1.
    + rewrite lookup_insert_ne by done. destruct (h !! x) as [c|]; [by destruct c|exact I].
Qed.

Lemma fold_movedOnly {A : Type} (f : Heap -> A -> Heap) (l : list A) :
  (forall h x, movedOnly h (f h x)) -> forall h, movedOnly h (fold_left f l h).
Proof.
  intros Hf. induction l as [|x l IH]; intros h; simpl; [apply movedOnly_refl|].
  eapply movedOnly_trans; [apply Hf|apply IH].
Qed.

Lemma resolveAmong_movedOnly (ids : list ActorId) : forall h : Heap,
  movedOnly h (resolveAmong ids h).
Proof.
  induction ids as [|i rest IH]; intros h; simpl; [apply movedOnly_refl|].
  eapply movedOnly_trans; [|apply IH].
  apply fold_movedOnly. intros h' j. apply resolvePair_movedOnly.
Qed.

Lemma Cell_ResolveCollisions_movedOnly (c : QuadTreeCell) : forall h : Heap,
  movedOnly h (Cell_ResolveCollisions c h).
Proof.
  induction c as [r m hd|r m hd c0 IH0 c1 IH1 c2 IH2 c3 IH3]; intros h; simpl.
  - apply resolveAmong_movedOnly.
  - eapply movedOnly_trans; [|apply IH3].
    eapply movedOnly_trans; [|apply IH2].
    eapply movedOnly_trans; [|apply IH1].
    eapply movedOnly_trans; [|apply IH0].
    eapply movedOnly_trans; [apply resolveAmong_movedOnly|].
    apply fold_movedOnly. intros h' i. apply fold_movedOnly.
    intros h'' j. apply resolvePair_movedOnly.
Qed.

(** X18: [ResolveCollisions] creates and destroys no actor and changes neither
    the registry, nor the deferred buffer, nor the update flag; of an
    actor it changes at most the position: elevation, angle, bounding
    boxes, pending-destroy flag and resource are kept. *)
Theorem ResolveCollisions_only_moves (sg : SceneGraph) :
  m_Actors (ResolveCollisions sg) = m_Actors sg /\
  m_NewActors (ResolveCollisions sg) = m_NewActors sg /\
  m_IsUpdatingActors (ResolveCollisions sg) = m_IsUpdatingActors sg /\
  forall id,
    match m_Heap sg !! id, m_Heap (ResolveCollisions sg) !! id with
    | Some a, Some a' => sameBody a a'
    | None, None => True
    | _, _ => False
    end.
Proof.
  split; [reflexivity|]. split; [reflexivity|]. split; [reflexivity|].
  assert (H : movedOnly (m_Heap sg) (m_Heap (ResolveCollisions sg))).
  { unfold ResolveCollisions, ClampActorsToBounds. simpl.
    eapply movedOnly_trans; [apply clampAll_movedOnly|apply Cell_ResolveCollisions_movedOnly]. }
  intros id. specialize (H id).
  destruct (m_Heap sg !! id) as [a|], (m_Heap (ResolveCollisions sg) !! id) as [a'|];
    try exact H.
  by apply (SetPosition_sameBody a a' (GetPosition a')).
Qed.

(** ** The tiles that [RenderTileMaps] visits *)

Lemma elem_of_countFrom (lo hi k : Z) : k ∈ countFrom lo hi <-> (lo <= k < hi)%Z.
Proof.
  unfold countFrom. rewrite list_elem_of_fmap. split.
  - intros (n & -> & Hn). apply list_elem_of_In, in_seq in Hn. lia.
  - intros H. exists (Z.to_nat (k - lo)). split; [lia|].
    apply list_elem_of_In, in_seq. lia.
Qed.

Lemma NoDup_countFrom (lo hi : Z) : NoDup (countFrom lo hi).
Proof.
  unfold countFrom. apply NoDup_fmap_2.
  - intros a b H. lia.
  - apply NoDup_ListNoDup, seq_NoDup.
Qed.

Lemma to_size_t_range (bits : N) (z : Z) : (0 <= to_size_t bits z < 2 ^ Z.of_N bits)%Z.
Proof. unfold to_size_t. apply Z.mod_pos_bound. apply Z.pow_pos_nonneg; lia. Qed.

Lemma to_size_t_small (bits : N) (z : Z) :
  (0 <= z < 2 ^ Z.of_N bits)%Z -> to_size_t bits z = z.
Proof. intros H. unfold to_size_t. by apply Z.mod_small. Qed.

Lemma to_size_t_negative (bits : N) (z : Z) :
  (- 2 ^ Z.of_N bits <= z < 0)%Z -> to_size_t bits z = (2 ^ Z.of_N bits + z)%Z.
Proof.
  intros H. unfold to_size_t.
  symmetry. apply (Z.mod_unique_pos z (2 ^ Z.of_N bits) (-1)); lia.
Qed.

(** Membership in the list of visited tiles. *)
Lemma elem_of_visitedTiles (bits : N) (minX minY maxX maxY : Z) (tm : TileMap) (j i : Z) :
  (j, i) ∈ visitedTiles bits (minX, minY, maxX, maxY) tm <->
  (to_size_t bits minX <= j < Z.min (Z.of_nat (GetWidth_ tm)) (to_size_t bits maxX))%Z /\
  (to_size_t bits minY <= i < Z.min (Z.of_nat (GetLength_ tm)) (to_size_t bits maxY))%Z.
Proof.
  unfold visitedTiles.
  destruct (_ && _) eqn:E.
  - rewrite list_elem_of_In, in_flat_map. split.
    + intros (i' & Hi & Hj). apply list_elem_of_In in Hi, Hj.
      apply list_elem_of_fmap in Hj as (j' & Heq & Hj). inversion Heq; subst.
      apply elem_of_countFrom in Hi, Hj. tauto.
    + intros [Hj Hi]. exists i. split.
      * apply list_elem_of_In, elem_of_countFrom. exact Hi.
      * apply list_elem_of_In, list_elem_of_fmap. exists j. split; [reflexivity|].
        apply elem_of_countFrom. exact Hj.
  - split; [set_solver|]. intros [Hj Hi].
    apply andb_false_iff in E as [E|E]; apply Z.ltb_ge in E; lia.
Qed.

Lemma NoDup_grid (cols rows : list Z) :
  NoDup cols -> NoDup rows ->
  NoDup (flat_map (fun i : Z => map (fun j : Z => (j, i)) cols) rows).
Proof.
  intros Hcols Hrows. induction Hrows as [|r rows Hr Hrows IH]; simpl;
    [apply NoDup_nil_2|].
  apply NoDup_app. split; [|split; [|exact IH]].
  - apply (NoDup_fmap_2 (fun j : Z => (j, r))). exact Hcols.
  - intros [j i] H1 H2. apply list_elem_of_fmap in H1 as (j' & Heq & _).
    inversion Heq; subst. apply list_elem_of_In, in_flat_map in H2 as (i' & Hi' & Hj').
    apply list_elem_of_In, list_elem_of_fmap in Hj' as (j'' & Heq' & _).
    inversion Heq'; subst. apply Hr. by apply list_elem_of_In.
Qed.

(** X19: The loops of [RenderTileMaps] visit no tile twice and only tiles of
    the grid of the tile map, for every culling window. *)
Theorem visitedTiles_inside_grid (bits : N) (window : Z * Z * Z * Z) (tm : TileMap) :
  NoDup (visitedTiles bits window tm) /\
  forall j i, (j, i) ∈ visitedTiles bits window tm ->
              (0 <= j < Z.of_nat (GetWidth_ tm))%Z /\ (0 <= i < Z.of_nat (GetLength_ tm))%Z.
Proof.
  destruct window as [[[minX minY] maxX] maxY]. split.
  - unfold visitedTiles. destruct (_ && _); [|apply NoDup_nil_2].
    apply NoDup_grid; apply NoDup_countFrom.
  - intros j i H. apply elem_of_visitedTiles in H as [Hj Hi].
    pose proof (to_size_t_range bits minX). pose proof (to_size_t_range bits minY). lia.
Qed.

Lemma cullingWindow_mins (sg : SceneGraph) (minX minY maxX maxY : Z) :
  cullingWindow sg = Ok (minX, minY, maxX, maxY) -> (0 <= minX)%Z /\ (0 <= minY)%Z.
Proof.
  unfold cullingWindow. destruct (cullingBoxExtent sg) as [e|]; simpl; [|discriminate].
  intros H. inversion H; subst. lia.
Qed.

(** X20: When the culling window ends at non-negative coordinates,
    [RenderTileMaps] visits exactly the tiles of the grid that lie in
    the window. *)
Theorem visitedTiles_window (bits : N) (sg : SceneGraph) (tm : TileMap)
        (minX minY maxX maxY : Z) (j i : Z) :
  cullingWindow sg = Ok (minX, minY, maxX, maxY) ->
  (minX < 2 ^ Z.of_N bits)%Z -> (minY < 2 ^ Z.of_N bits)%Z ->
  (0 <= maxX < 2 ^ Z.of_N bits)%Z -> (0 <= maxY < 2 ^ Z.of_N bits)%Z ->
  (j, i) ∈ visitedTiles bits (minX, minY, maxX, maxY) tm <->
  (minX <= j < maxX)%Z /\ (j < Z.of_nat (GetWidth_ tm))%Z /\
  (minY <= i < maxY)%Z /\ (i < Z.of_nat (GetLength_ tm))%Z.
Proof.
  intros Hw HX HY HmX HmY. apply cullingWindow_mins in Hw as [H0 H1].
  rewrite elem_of_visitedTiles, !to_size_t_small by lia. lia.
Qed.

(** X21: When the culling window ends at a negative row, the conversion of
    [maxY] to [size_t] wraps and the row bound is lost: [RenderTileMaps]
    visits every row of the grid from [minY] on. *)
Theorem visitedTiles_negative_end (bits : N) (sg : SceneGraph) (tm : TileMap)
        (minX minY maxX maxY : Z) (j i : Z) :
  cullingWindow sg = Ok (minX, minY, maxX, maxY) ->
  (31 <= Z.of_N bits)%Z ->
  (minX < 2 ^ Z.of_N bits)%Z -> (minY < 2 ^ Z.of_N bits)%Z ->
  (0 <= maxX < 2 ^ Z.of_N bits)%Z ->
  (- 2 ^ 31 <= maxY < 0)%Z ->
  (Z.of_nat (GetLength_ tm) <= 2 ^ Z.of_N bits - 2 ^ 31)%Z ->
  (j, i) ∈ visitedTiles bits (minX, minY, maxX, maxY) tm <->
  (minX <= j < maxX)%Z /\ (j < Z.of_nat (GetWidth_ tm))%Z /\
  (minY <= i < Z.of_nat (GetLength_ tm))%Z.
Proof.
  intros Hw Hb HX HY HmX HmY HL. apply cullingWindow_mins in Hw as [H0 H1].
  assert (2 ^ 31 <= 2 ^ Z.of_N bits)%Z by (apply Z.pow_le_mono_r; lia).
  rewrite elem_of_visitedTiles, !(to_size_t_small bits minX), !(to_size_t_small bits minY),
    (to_size_t_small bits maxX), (to_size_t_negative bits maxY) by lia.
  lia.
Qed.

Section TileMapOrder.

Variable size_bits : N.
Variable GetNumLayers : TileMap -> Z -> Z -> Z.
Variable AreTransitionsHidden : TileMap -> bool.
Variable GetTile : TileMap -> Z -> Z -> Z -> Tile.

(** X22: [AddTileMap] appends: the new tile map gets the next index, the tile
    maps present keep theirs, and [RenderTileMaps] issues the calls it
    issued before, followed by those of the new tile map. *)
Theorem AddTileMap_is_drawn_last (sg : SceneGraph) (tileMap : TileMap) :
  GetTileMap (AddTileMap sg tileMap) (length (m_TileMaps sg)) = Some tileMap /\
  (forall index, (index < length (m_TileMaps sg))%nat ->
                 GetTileMap (AddTileMap sg tileMap) index = GetTileMap sg index) /\
  RenderTileMaps size_bits GetNumLayers AreTransitionsHidden GetTile (AddTileMap sg tileMap)
  = (draws <- RenderTileMaps size_bits GetNumLayers AreTransitionsHidden GetTile sg ;;
     window <- cullingWindow sg ;;
     Ok (draws ++ tileMapDraws size_bits GetNumLayers AreTransitionsHidden GetTile
                               sg window tileMap)).
Proof.
  unfold GetTileMap, AddTileMap. simpl. split; [|split].
  - rewrite lookup_app_r by lia. by rewrite Nat.sub_diag.
  - intros index Hi. by rewrite lookup_app_l.
  - unfold RenderTileMaps.
    change (cullingWindow (set_TileMaps sg (m_TileMaps sg ++ [tileMap])))
      with (cullingWindow sg).
    destruct (cullingWindow sg) as [window|]; simpl; [|reflexivity].
    rewrite flat_map_app. simpl. rewrite app_nil_r. reflexivity.
Qed.

End TileMapOrder.

Lemma visitedTiles_window_witness :
  (3, 4)%Z ∈ visitedTiles 64 (0, 0, 23, 23)%Z (mkTileMap 10 10) <->
  (0 <= 3 < 23)%Z /\ (3 < Z.of_nat (GetWidth_ (mkTileMap 10 10)))%Z /\
  (0 <= 4 < 23)%Z /\ (4 < Z.of_nat (GetLength_ (mkTileMap 10 10)))%Z.
Proof.
  apply (visitedTiles_window 64 (demoScene OBLIQUE 32 32) (mkTileMap 10 10)
           0 0 23 23 3 4)%Z.
  - vm_compute. reflexivity.
  - reflexivity.
  - reflexivity.
  - split; [discriminate|reflexivity].
  - split; [discriminate|reflexivity].
Defined.

Lemma visitedTiles_negative_end_witness :
  (3, 9)%Z ∈ visitedTiles 64 (0, 0, 23, -27)%Z (mkTileMap 10 10) <->
  (0 <= 3 < 23)%Z /\ (3 < Z.of_nat (GetWidth_ (mkTileMap 10 10)))%Z /\
  (0 <= 9 < Z.of_nat (GetLength_ (mkTileMap 10 10)))%Z.
Proof.
  apply (visitedTiles_negative_end 64
           (SetCameraPosition (demoScene OBLIQUE 32 32) (mkPoint 0 (-50)) 0)
           (mkTileMap 10 10) 0 0 23 (-27) 3 9)%Z.
  - vm_compute. reflexivity.
  - discriminate.
  - reflexivity.
  - reflexivity.
  - split; [discriminate|reflexivity].
  - split; [discriminate|reflexivity].
  - discriminate.
Defined.

(** ** The saved document *)

Lemma actorToJson_sameData (a b : Actor) : sameData a b -> actorToJson a = actorToJson b.
Proof.
  unfold sameData, SetQuadTreeCell, actorToJson. intros H. by inversion H.
Qed.

Lemma actorsToJson_sameActors (h h' : Heap) (ids : list ActorId) :
  sameActors h h' -> actorsToJson h ids = actorsToJson h' ids.
Proof.
  intros Hs. unfold actorsToJson. induction ids as [|x ids IH]; [reflexivity|].
  cbn [mapM]. rewrite IH. specialize (Hs x).
  destruct (h !! x) as [a|], (h' !! x) as [b|]; try contradiction; [|reflexivity].
  simpl. by rewrite (actorToJson_sameData a b Hs).
Qed.

Lemma actorsToJson_alive (h : Heap) (ids : list ActorId) (l : list Json) :
  actorsToJson h ids = Some l -> forall id, id ∈ ids -> is_Some (h !! id).
Proof.
  unfold actorsToJson. intros H id Hid.
  apply mapM_Some_1 in H.
  apply list_elem_of_lookup in Hid as [i Hi].
  destruct (Forall2_lookup_l _ _ _ _ _ H Hi) as (y & _ & Hy).
  destruct (h !! id); [eauto|discriminate].
Qed.

Lemma actorsToJson_insert (h : Heap) (ids : list ActorId) (id : ActorId) (a : Actor) :
  id ∉ ids -> actorsToJson (<[id := a]> h) ids = actorsToJson h ids.
Proof.
  intros Hid. unfold actorsToJson. induction ids as [|x ids IH]; [reflexivity|].
  cbn [mapM]. rewrite IH by set_solver. rewrite lookup_insert_ne by set_solver.
  reflexivity.
Qed.

Lemma actorsToJson_app (h : Heap) (ids : list ActorId) (l : list Json) (id : ActorId)
      (a : Actor) :
  actorsToJson h ids = Some l -> h !! id = Some a ->
  actorsToJson h (ids ++ [id]) = Some (l ++ [actorToJson a]).
Proof.
  unfold actorsToJson. intros H Ha. apply mapM_Some. apply mapM_Some in H.
  apply Forall2_app; [exact H|]. constructor; [|constructor]. by rewrite Ha.
Qed.

(** [InsertActor] keeps the region and the threshold of the cell it is
    called on. *)
Lemma Cell_InsertActor_region (depth : nat) :
  forall (path : CellPath) (c : QuadTreeCell) (id : ActorId) (h : Heap),
    GetBoundingBox (Cell_InsertActor depth path c id h).1 = GetBoundingBox c /\
    GetMaxNumActors (Cell_InsertActor depth path c id h).1 = GetMaxNumActors c.
Proof.
  induction depth as [|depth IH]; intros path c id h.
  - simpl. by destruct c.
  - destruct c as [r m hd|r m hd c0 c1 c2 c3]; simpl.
    + destruct (m <? length (hd ++ [id]))%nat; simpl; [|auto].
      set (f := fun (st : QuadTreeCell * Heap) (a : ActorId) =>
                  Cell_InsertActor depth path st.1 a st.2).
      assert (Hfold : forall (l : list ActorId) (st : QuadTreeCell * Heap),
                 GetBoundingBox (fold_left f l st).1 = GetBoundingBox st.1 /\
                 GetMaxNumActors (fold_left f l st).1 = GetMaxNumActors st.1).
      { induction l as [|a l IHl]; intros st; simpl; [auto|].
        destruct (IHl (f st a)) as [-> ->]. unfold f. apply IH. }
      match goal with
      | |- context [fold_left f ?l ?st] => destruct (Hfold l st) as [Hb Hm]
      end.
      rewrite Hb, Hm. auto.
    + destruct (fittingQuadrant h id r) as [q|]; simpl; [|auto].
      destruct q; simpl;
        match goal with
        | |- context [Cell_InsertActor depth ?p ?k id h] =>
            destruct (Cell_InsertActor depth p k id h) as [k' h']
        end; simpl; auto.
Qed.

(** What [AddActor] leaves of the document around the actors. *)
Lemma AddActor_document (TileMap_Serialize : TileMap -> Json) (ToJsonValue : Rect -> Json)
      (sg : SceneGraph) (id : ActorId) (a : Actor) (l : list Json) :
  sceneToJson TileMap_Serialize ToJsonValue (AddActor sg id a).2 l
  = sceneToJson TileMap_Serialize ToJsonValue sg l.
Proof.
  unfold AddActor. generalize InsertDepth. intros depth.
  destruct sg as [rr hp ac tm tw th hw hh zm wc we sc rt ps na up]. simpl.
  destruct up; simpl;
    match goal with
    | |- context [Cell_InsertActor ?d ?p ?c ?i ?h] =>
        destruct (Cell_InsertActor_region d p c i h) as [Hb Hm];
        destruct (Cell_InsertActor d p c i h) as [root' h']
    end; simpl in *; unfold sceneToJson; simpl; by rewrite Hb, Hm.
Qed.

Section SavedDocument.

Variable TileMap_Serialize : TileMap -> Json.
Variable ToJsonValue : Rect -> Json.
Variable factory : Actor -> string -> bool * Actor.

(** X23: The document of [Serialize] depends neither on the camera nor on the
    zoom: [SetCameraPosition] and [SetZoom] leave it unchanged. *)
Theorem Serialize_ignores_view (sg : SceneGraph) (cam : Point) (e zoom : Q) :
  Serialize TileMap_Serialize ToJsonValue (SetCameraPosition sg cam e)
    = Serialize TileMap_Serialize ToJsonValue sg /\
  Serialize TileMap_Serialize ToJsonValue (SetZoom sg zoom)
    = Serialize TileMap_Serialize ToJsonValue sg.
Proof. repeat split. Qed.

(** X24: A successful [SpawnActor] outside an update pass adds one entry, for
    the new actor, at the end of the actors of the document of
    [Serialize] and changes nothing else of it; during an update pass the
    document is unchanged, the actor being in the deferred buffer. *)
Theorem Serialize_after_spawn (sg : SceneGraph) (file : string) (p : Point) (e : Q)
        (a : Actor) (l : list Json) :
  factory (Actor_new p e) file = (true, a) ->
  actorsToJson (m_Heap sg) (m_Actors sg) = Some l ->
  Serialize TileMap_Serialize ToJsonValue (SpawnActor factory sg file p e).2
  = Some (sceneToJson TileMap_Serialize ToJsonValue sg
            (if m_IsUpdatingActors sg then l else l ++ [actorToJson a])).
Proof.
  intros Hf Hl.
  assert (Hfresh : m_Heap sg !! newActorId sg = None).
  { unfold newActorId. apply (not_elem_of_dom (D := gset ActorId)). apply is_fresh. }
  assert (Hnot : newActorId sg ∉ m_Actors sg).
  { intros Hin. destruct (actorsToJson_alive _ _ _ Hl _ Hin) as [b Hb]. congruence. }
  unfold SpawnActor. rewrite Hf. cbn [negb].
  generalize dependent (newActorId sg). intros id Hfresh Hnot.
  pose proof (AddActor_effect sg id a) as (_ & _ & H3 & _ & H5).
  pose proof (AddActor_document TileMap_Serialize ToJsonValue sg id a) as Hdoc.
  destruct (AddActor sg id a) as [ref sg']. simpl in *.
  unfold Serialize. rewrite H3, <- (actorsToJson_sameActors _ _ _ H5).
  destruct (m_IsUpdatingActors sg).
  - rewrite actorsToJson_insert, Hl by assumption. simpl. by rewrite Hdoc.
  - rewrite (actorsToJson_app _ _ l id a).
    + simpl. by rewrite Hdoc.
    + by rewrite actorsToJson_insert.
    + by rewrite lookup_insert_eq.
Qed.

End SavedDocument.

Lemma Serialize_after_spawn_witness :
  Serialize demoTileMapJson demoRectJson
            (SpawnActor unitBoxFactory twoActorScene "c" (mkPoint 3 3) 0).2
  = Some (sceneToJson demoTileMapJson demoRectJson twoActorScene
            (if m_IsUpdatingActors twoActorScene
             then [actorToJson (unitBoxFactory (Actor_new (mkPoint 1 1) 0) "a").2;
                   actorToJson (unitBoxFactory (Actor_new (mkPoint 2 2) 0) "b").2]
             else [actorToJson (unitBoxFactory (Actor_new (mkPoint 1 1) 0) "a").2;
                   actorToJson (unitBoxFactory (Actor_new (mkPoint 2 2) 0) "b").2]
                  ++ [actorToJson (unitBoxFactory (Actor_new (mkPoint 3 3) 0) "c").2])).
Proof.
  apply (Serialize_after_spawn demoTileMapJson demoRectJson unitBoxFactory twoActorScene
           "c" (mkPoint 3 3) 0).
  - reflexivity.
  - vm_compute. reflexivity.
Defined.

(** ** The index across the lifecycle *)

Section IndexLifecycle.

Variable factory : Actor -> string -> bool * Actor.
Variable logic : ActorId -> Q -> SceneGraph -> list Request.

(** X25: Started from a scene whose index agrees with the back-references,
    [Update] leaves no reference to a destroyed actor in the index: every
    actor the index enumerates afterwards is alive and knows its cell. *)
Theorem Update_index_references_live_actors (sg : SceneGraph) (deltaTime : Q)
        (id : ActorId) :
  indexOk sg -> indexed (Update factory logic sg deltaTime) id ->
  exists a, m_Heap (Update factory logic sg deltaTime) !! id = Some a /\
            is_Some (GetQuadTreeCell a).
Proof.
  intros Hok Hid. apply indexOk_in_heap; [by apply Update_indexOk|exact Hid].
Qed.

End IndexLifecycle.

Lemma Update_index_references_live_actors_witness :
  exists a, m_Heap (Update unitBoxFactory selfDestructLogic twoActorScene 1) !! 0%nat = Some a /\
            is_Some (GetQuadTreeCell a).
Proof.
  apply (Update_index_references_live_actors unitBoxFactory selfDestructLogic twoActorScene 1
           0%nat twoActorScene_indexOk).
  vm_compute. apply list_elem_of_here.
Defined.

(** X26: Started from a scene whose index agrees with the back-references,
    [ClearActors] keeps them in agreement, leaves no actor of the registry
    in the index and adds none to it. *)
Theorem ClearActors_empties_index (sg : SceneGraph) :
  indexOk sg ->
  indexOk (ClearActors sg) /\
  (forall id, id ∈ m_Actors sg -> ~ indexed (ClearActors sg) id) /\
  (forall id, indexed (ClearActors sg) id -> indexed sg id).
Proof.
  intros Hok. split; [by apply ClearActors_indexOk|].
  unfold ClearActors, indexed, AppendActorList. simpl.
  destruct (removeAll_indexOk (m_Actors sg) sg Hok) as (_ & H2 & H3 & _).
  split; intros id; [apply H2|apply H3].
Qed.

Lemma ClearActors_empties_index_witness :
  indexOk (ClearActors twoActorScene) /\
  (forall id, id ∈ m_Actors twoActorScene -> ~ indexed (ClearActors twoActorScene) id) /\
  (forall id, indexed (ClearActors twoActorScene) id -> indexed twoActorScene id).
Proof.
  apply (ClearActors_empties_index twoActorScene twoActorScene_indexOk).
Defined.

(** ** What the flush destroys *)

(** What [DestroyPendingActors] does to an actor of the registry: the
    flagged ones stay, untouched, and the others are destroyed. *)
Lemma DestroyPendingActors_effect (sg : SceneGraph) (id : ActorId) :
  id ∈ m_Actors sg ->
  if pendingDestroy (m_Heap sg) id
  then (id ∈ m_Actors (DestroyPendingActors sg)) /\
       m_Heap (DestroyPendingActors sg) !! id = m_Heap sg !! id
  else (id ∉ m_Actors (DestroyPendingActors sg)) /\
       m_Heap (DestroyPendingActors sg) !! id = None.
Proof.
  intros Hid. rewrite DestroyPendingActors_registry.
  unfold DestroyPendingActors. rewrite partition_as_filter.
  set (front := List.filter (pendingDestroy (m_Heap sg)) (m_Actors sg)).
  set (back := List.filter (fun x => negb (pendingDestroy (m_Heap sg) x)) (m_Actors sg)).
  destruct (removeAll_frame back (set_Actors sg (front ++ back))) as (_ & _ & _ & _ & H5).
  simpl in *. apply list_elem_of_In in Hid.
  destruct (pendingDestroy (m_Heap sg) id) eqn:E.
  - assert (Hback : id ∉ back).
    { intros H. apply list_elem_of_In, filter_In in H as [_ H]. rewrite E in H. discriminate. }
    split.
    + apply list_elem_of_In, filter_In. auto.
    + rewrite (proj1 (fold_delete_lookup back _ id) Hback). by apply H5.
  - split.
    + intros H. apply list_elem_of_In, filter_In in H as [_ H]. congruence.
    + apply fold_delete_in. apply list_elem_of_In, filter_In. rewrite E. auto.
Qed.

(** X27: [DestroyPendingActors] keeps, untouched, an actor of the registry that
    is flagged pending-destroy and destroys one that is not: the group
    that follows the partition point, which is removed from the graph and
    erased, is the one that fails the predicate. *)
Theorem DestroyPendingActors_keeps_pending (sg : SceneGraph) (id : ActorId) (a : Actor) :
  id ∈ m_Actors sg -> m_Heap sg !! id = Some a ->
  if IsPendingDestroy a
  then (id ∈ m_Actors (DestroyPendingActors sg)) /\
       m_Heap (DestroyPendingActors sg) !! id = Some a
  else (id ∉ m_Actors (DestroyPendingActors sg)) /\
       m_Heap (DestroyPendingActors sg) !! id = None.
Proof.
  intros Hid Ha. pose proof (DestroyPendingActors_effect sg id Hid) as H.
  unfold pendingDestroy in H. rewrite Ha in H.
  destruct (IsPendingDestroy a); exact H.
Qed.

Lemma DestroyPendingActors_keeps_pending_witness :
  let sg := perform unitBoxFactory twoActorScene (RequestDestroy 0%nat) in
  let a := mkActor (mkPoint 1 1) 0 0 (Some [mkRect 0 0 1 1]) true (Some []) "a" in
  (0%nat ∈ m_Actors (DestroyPendingActors sg)) /\
  m_Heap (DestroyPendingActors sg) !! 0%nat = Some a.
Proof.
  apply (DestroyPendingActors_keeps_pending
           (perform unitBoxFactory twoActorScene (RequestDestroy 0%nat)) 0%nat
           (mkActor (mkPoint 1 1) 0 0 (Some [mkRect 0 0 1 1]) true (Some []) "a")).
  - vm_compute. apply list_elem_of_here.
  - vm_compute. reflexivity.
Defined.

Section Flush.

Variable factory : Actor -> string -> bool * Actor.
Variable logic : ActorId -> Q -> SceneGraph -> list Request.

(** X28: When [Update] returns, every actor of the registry is alive and
    flagged pending-destroy. *)
Theorem Update_registry_all_pending (sg : SceneGraph) (deltaTime : Q) (id : ActorId) :
  id ∈ m_Actors (Update factory logic sg deltaTime) ->
  exists a, m_Heap (Update factory logic sg deltaTime) !! id = Some a /\
            IsPendingDestroy a = true.
Proof.
  unfold Update. simpl.
  set (s4 := set_NewActors _ []).
  intros Hid.
  assert (Hin : id ∈ m_Actors s4 /\ pendingDestroy (m_Heap s4) id = true).
  { rewrite DestroyPendingActors_registry in Hid.
    apply list_elem_of_In, filter_In in Hid as [H1 H2]. split; [by apply list_elem_of_In|exact H2]. }
  destruct Hin as [Hreg Hp].
  pose proof (DestroyPendingActors_effect s4 id Hreg) as H. rewrite Hp in H.
  destruct H as [_ H]. rewrite H. unfold pendingDestroy in Hp.
  destruct (m_Heap s4 !! id) as [a|]; [eauto|discriminate].
Qed.

End Flush.

Lemma Update_registry_all_pending_witness :
  exists a, m_Heap (Update unitBoxFactory selfDestructLogic twoActorScene 1) !! 0%nat = Some a /\
            IsPendingDestroy a = true.
Proof.
  apply (Update_registry_all_pending unitBoxFactory selfDestructLogic twoActorScene 1 0%nat).
  vm_compute. apply list_elem_of_here.
Defined.
